(** * Thread_Pool: a fixed-size worker pool over a mutex-protected FIFO

    Shallow embedding of [SafeQueue.hpp], [ThreadPool.hpp] and the part of
    [test.hpp] that exercises them, as an interleaving semantics: every
    thread (the workers, the callers of [submit], the caller of [shutdown])
    advances by atomic statements, and a run of the program is a list of
    labels saying which thread moves next.

    What counts as one atomic statement follows the synchronisation present
    in the source: every member of [SageQueue] takes the queue's own mutex
    for its whole body, [_shutdown] is a [std::atomic<bool>], and the
    condition variable and [ThreadPool::_mtx] have the semantics of the C++
    standard library. *)

From Stdlib Require Import ZArith List Lia Bool String.
From stdpp Require Import base option list.

Local Open Scope Z_scope.
Local Open Scope nat_scope.

(** ** SafeQueue.hpp *)

(** [SageQueue<T>] wraps a [std::queue<T>]; the wrapped queue is a list whose
    head is the front.  Each member function locks [SageQueue::_mtx] on entry
    and releases it on return, so each is one atomic step of the semantics
    below.  [std::queue::pop] and [std::queue::front] are undefined on an empty
    queue: the embedding returns [None] there. *)
Module SageQueue.
Section Members.
Context {T : Type}.

Definition size (q : list T) : nat := length q.

Definition empty (q : list T) : bool :=
  match q with
  | [] => true
  | _ :: _ => false
  end.

Definition push (x : T) (q : list T) : list T := q ++ [x].

Definition pop (q : list T) : option (list T) :=
  match q with
  | [] => None
  | _ :: q' => Some q'
  end.

Definition top (q : list T) : option T :=
  match q with
  | [] => None
  | x :: _ => Some x
  end.

(** A client of the queue alone: a sequence of pushes and pops, with the
    log of the elements the pops removed. *)
Inductive op :=
| OpPush (x : T)
| OpPop.

Fixpoint pushes (ops : list op) : list T :=
  match ops with
  | [] => []
  | OpPush x :: ops' => x :: pushes ops'
  | OpPop :: ops' => pushes ops'
  end.

Fixpoint run_ops (ops : list op) (q : list T) (out : list T)
  : option (list T * list T) :=
  match ops with
  | [] => Some (q, out)
  | OpPush x :: ops' => run_ops ops' (push x q) out
  | OpPop :: ops' =>
      match top q, pop q with
      | Some x, Some q' => run_ops ops' q' (out ++ [x])
      | _, _ => None
      end
  end.
End Members.
Arguments op : clear implicits.
End SageQueue.

(** ** Values, callables and packaged tasks *)

(** The tests only pass [int]s around; an [int] is a [Z] here (signed
    overflow is undefined in C++, so there is no wrap-around to write). *)
Inductive value :=
| VVoid
| VInt (z : Z).

(** What running a callable amounts to: it returns, or it throws. *)
Inductive outcome :=
| Returned (v : value)
| Threw (what : string).

(** A callable as [submit] sees it after [std::bind]: it is run on the cells
    that hold its bound arguments (a reference parameter designates the cell,
    a value parameter is initialised from it) and on the memory of the rest of
    the program (whatever it reaches through captures and globals).  It gives
    back its outcome and the final contents of both. *)
Definition callable : Type := list Z → list Z → outcome * list Z * list Z.

(** An argument expression at a call of [submit]: a variable of the caller
    (an lvalue, by its index in the program memory) or a temporary. *)
Inductive arg :=
| Lvalue (a : nat)
| Rvalue (v : Z).

Definition arg_value (vars : list Z) (a : arg) : Z :=
  match a with
  | Lvalue x => default 0%Z (vars !! x)
  | Rvalue v => v
  end.

(** The object behind [task_ptr]: a [std::packaged_task<RT()>] holding the
    bind expression (the callable and its own decayed copies of the
    arguments) and the shared state read by the future ([None]: not ready). *)
Record packaged_task := {
  pt_fn : callable;
  pt_bound : list Z;
  pt_state : option outcome
}.

(** ** ThreadPool.hpp: the state *)

(** Control points of [ThreadWorker::operator()], one per shared access. *)
Inductive wpc :=
| WhileShutdown   (* while (not _pool->_shutdown ...           *)
| WhileEmpty      (*        ... or not _pool->_tasks.empty())  *)
| Lock            (* std::unique_lock<std::mutex> lock(_pool->_mtx) *)
| IfEmpty         (* if (_pool->_tasks.empty() ...             *)
| IfShutdown      (*     ... and not _pool->_shutdown)         *)
| Wait            (* _pool->_tasks_empty.wait(lock): entering  *)
| Blocked         (* inside wait: _mtx released, thread asleep *)
| Relock          (* inside wait: woken, taking _mtx again     *)
| GetEmpty        (* if (_pool->_tasks.empty()) gotten = false; else ... *)
| Top             (* func = std::move(_pool->_tasks.top())     *)
| Pop             (* _pool->_tasks.pop()                       *)
| IfGotten        (* if (gotten) ...                           *)
| Invoke          (* ... func(): the task is running           *)
| Unlock          (* end of the loop body: ~unique_lock        *)
| Exited          (* the loop is left, the thread has finished *)
| Fault.          (* undefined behaviour, or std::terminate    *)

Global Instance wpc_eq_dec : EqDecision wpc.
Proof. solve_decision. Defined.

(** A worker thread: where it stands, and its locals [func] (a copy of the
    closure [[task_ptr]], that is the packaged task it points to) and
    [gotten]. *)
Record ThreadWorker := {
  pc : wpc;
  func : option nat;
  gotten : bool
}.

(** Control points of a call of [shutdown()]. *)
Inductive shutdown_pc :=
| NotCalled
| NotifyAll            (* _shutdown is set, notify_all is next *)
| Join (i : nat)       (* the loop over _threads, at index i  *)
| Returned_.

(** The pool.  The first four fields are the members of the class (the
    waiters of [_tasks_empty] are the workers standing at [Blocked]).  [heap]
    holds the packaged tasks made by [std::make_shared], a task pointer being
    an index in it; [vars] is the memory of the rest of the program;
    [submitting] counts the calls of [submit] that have pushed and not yet
    notified; [sh] is the caller of [shutdown].  The last two fields are
    history variables, written and never read by the program: the tasks
    removed from the queue and the tasks run to completion, in order. *)
Record ThreadPool := {
  _shutdown : bool;
  _tasks : list nat;
  _threads : list ThreadWorker;
  _mtx : option nat;
  heap : list packaged_task;
  vars : list Z;
  submitting : nat;
  sh : shutdown_pc;
  taken : list nat;
  executed : list nat
}.

(** Field updates. *)
Definition with_shutdown (b : bool) (s : ThreadPool) : ThreadPool :=
  {| _shutdown := b; _tasks := _tasks s; _threads := _threads s;
     _mtx := _mtx s; heap := heap s; vars := vars s;
     submitting := submitting s; sh := sh s; taken := taken s;
     executed := executed s |}.

Definition with_tasks (q : list nat) (s : ThreadPool) : ThreadPool :=
  {| _shutdown := _shutdown s; _tasks := q; _threads := _threads s;
     _mtx := _mtx s; heap := heap s; vars := vars s;
     submitting := submitting s; sh := sh s; taken := taken s;
     executed := executed s |}.

Definition with_threads (ths : list ThreadWorker) (s : ThreadPool) : ThreadPool :=
  {| _shutdown := _shutdown s; _tasks := _tasks s; _threads := ths;
     _mtx := _mtx s; heap := heap s; vars := vars s;
     submitting := submitting s; sh := sh s; taken := taken s;
     executed := executed s |}.

Definition with_mtx (o : option nat) (s : ThreadPool) : ThreadPool :=
  {| _shutdown := _shutdown s; _tasks := _tasks s; _threads := _threads s;
     _mtx := o; heap := heap s; vars := vars s;
     submitting := submitting s; sh := sh s; taken := taken s;
     executed := executed s |}.

Definition with_heap (h : list packaged_task) (s : ThreadPool) : ThreadPool :=
  {| _shutdown := _shutdown s; _tasks := _tasks s; _threads := _threads s;
     _mtx := _mtx s; heap := h; vars := vars s;
     submitting := submitting s; sh := sh s; taken := taken s;
     executed := executed s |}.

Definition with_vars (vs : list Z) (s : ThreadPool) : ThreadPool :=
  {| _shutdown := _shutdown s; _tasks := _tasks s; _threads := _threads s;
     _mtx := _mtx s; heap := heap s; vars := vs;
     submitting := submitting s; sh := sh s; taken := taken s;
     executed := executed s |}.

Definition with_submitting (n : nat) (s : ThreadPool) : ThreadPool :=
  {| _shutdown := _shutdown s; _tasks := _tasks s; _threads := _threads s;
     _mtx := _mtx s; heap := heap s; vars := vars s;
     submitting := n; sh := sh s; taken := taken s;
     executed := executed s |}.

Definition with_sh (p : shutdown_pc) (s : ThreadPool) : ThreadPool :=
  {| _shutdown := _shutdown s; _tasks := _tasks s; _threads := _threads s;
     _mtx := _mtx s; heap := heap s; vars := vars s;
     submitting := submitting s; sh := p; taken := taken s;
     executed := executed s |}.

Definition with_taken (l : list nat) (s : ThreadPool) : ThreadPool :=
  {| _shutdown := _shutdown s; _tasks := _tasks s; _threads := _threads s;
     _mtx := _mtx s; heap := heap s; vars := vars s;
     submitting := submitting s; sh := sh s; taken := l;
     executed := executed s |}.

Definition with_executed (l : list nat) (s : ThreadPool) : ThreadPool :=
  {| _shutdown := _shutdown s; _tasks := _tasks s; _threads := _threads s;
     _mtx := _mtx s; heap := heap s; vars := vars s;
     submitting := submitting s; sh := sh s; taken := taken s;
     executed := l |}.

Definition at_pc (p : wpc) (w : ThreadWorker) : ThreadWorker :=
  {| pc := p; func := func w; gotten := gotten w |}.

Definition with_func (t : nat) (w : ThreadWorker) : ThreadWorker :=
  {| pc := pc w; func := Some t; gotten := gotten w |}.

Definition with_gotten (b : bool) (w : ThreadWorker) : ThreadWorker :=
  {| pc := pc w; func := func w; gotten := b |}.

(** Worker [i] becomes [w]. *)
Definition set_worker (i : nat) (w : ThreadWorker) (s : ThreadPool) : ThreadPool :=
  with_threads (<[i := w]> (_threads s)) s.

(** ** ThreadPool.hpp: the constructor *)

(** [ThreadPool(const int _n_threads) : _threads(_n_threads), _shutdown(false)]
    converts the [int] to the vector's [size_type] and builds that many
    threads, each started on a fresh [ThreadWorker].  There is no test of the
    count.  The data model is LP64 ([int] of 32 bits, [size_t] of 64) and the
    largest vector is the standard library's [PTRDIFF_MAX / sizeof(T)]; a
    longer one makes the vector's constructor throw, which leaves the pool's
    constructor.  Failure to start a thread for want of resources is not
    modelled. *)
Inductive ctor_error :=
| length_error.

Definition int_to_size_t (n : Z) : Z := (n mod 2 ^ 64)%Z.

Definition sizeof_thread : Z := 8%Z.

Definition vector_max_size : Z := ((2 ^ 63 - 1) / sizeof_thread)%Z.

Definition new_worker : ThreadWorker :=
  {| pc := WhileShutdown; func := None; gotten := false |}.

(** The pool as the constructor leaves it, with [n] threads started. *)
Definition fresh_pool (n : nat) : ThreadPool :=
  {| _shutdown := false; _tasks := [];
     _threads := replicate n new_worker;
     _mtx := None; heap := []; vars := [];
     submitting := 0; sh := NotCalled; taken := []; executed := [] |}.

Definition ThreadPool_ctor (_n_threads : Z) : ctor_error + ThreadPool :=
  let n := int_to_size_t _n_threads in
  if (vector_max_size <? n)%Z then inl length_error
  else inr (fresh_pool (Z.to_nat n)).

(** ** ThreadPool.hpp: the worker loop *)

Definition goto (i : nat) (p : wpc) (w : ThreadWorker) (s : ThreadPool) : ThreadPool :=
  set_worker i (at_pc p w) s.

(** The call of the packaged task [t] behind [task_ptr]: the bind expression is called
    on its own argument cells; what it returns or throws is stored in the
    shared state, so nothing is thrown to the caller, unless the state was
    written before, in which case [std::future_error] is thrown to it. *)
Definition invoke (t : nat) (s : ThreadPool) : option ThreadPool :=
  pt ← heap s !! t;
  match pt_state pt with
  | Some _ => None
  | None =>
      let '(o, ps, vs) := pt_fn pt (pt_bound pt) (vars s) in
      Some (with_executed (executed s ++ [t])
             (with_vars vs
               (with_heap (<[t := {| pt_fn := pt_fn pt; pt_bound := ps;
                                     pt_state := Some o |}]> (heap s)) s)))
  end.

(** One statement of [ThreadWorker::operator()] run by worker [i]; [None]
    when the thread cannot move (it waits for the mutex or for the condition
    variable, or it has finished). *)
Definition ThreadWorker_step (i : nat) (s : ThreadPool) : option ThreadPool :=
  w ← _threads s !! i;
  match pc w with
  | WhileShutdown =>
      Some (goto i (if _shutdown s then WhileEmpty else Lock) w s)
  | WhileEmpty =>
      Some (goto i (if SageQueue.empty (_tasks s) then Exited else Lock) w s)
  | Lock =>
      match _mtx s with
      | None => Some (goto i IfEmpty w (with_mtx (Some i) s))
      | Some _ => None
      end
  | IfEmpty =>
      Some (goto i (if SageQueue.empty (_tasks s) then IfShutdown else GetEmpty) w s)
  | IfShutdown =>
      Some (goto i (if _shutdown s then GetEmpty else Wait) w s)
  | Wait =>
      Some (goto i Blocked w (with_mtx None s))
  | Blocked => None
  | Relock =>
      match _mtx s with
      | None => Some (goto i GetEmpty w (with_mtx (Some i) s))
      | Some _ => None
      end
  | GetEmpty =>
      if SageQueue.empty (_tasks s)
      then Some (goto i IfGotten (with_gotten false w) s)
      else Some (goto i Top (with_gotten true w) s)
  | Top =>
      match SageQueue.top (_tasks s) with
      | Some t => Some (goto i Pop (with_func t w) s)
      | None => Some (goto i Fault w s)
      end
  | Pop =>
      match SageQueue.top (_tasks s), SageQueue.pop (_tasks s) with
      | Some t, Some q =>
          Some (goto i IfGotten w (with_taken (taken s ++ [t]) (with_tasks q s)))
      | _, _ => Some (goto i Fault w s)
      end
  | IfGotten =>
      Some (goto i (if gotten w then Invoke else Unlock) w s)
  | Invoke =>
      match func w with
      | None => Some (goto i Fault w s)
      | Some t =>
          match invoke t s with
          | Some s' => Some (goto i Unlock w s')
          | None => Some (goto i Fault w s)
          end
      end
  | Unlock =>
      Some (goto i WhileShutdown w (with_mtx None s))
  | Exited => None
  | Fault => None
  end.

(** ** ThreadPool.hpp: [submit] and [shutdown] *)

Definition is_blocked (w : ThreadWorker) : bool :=
  bool_decide (pc w = Blocked).

Definition wake (w : ThreadWorker) : ThreadWorker :=
  if is_blocked w then at_pc Relock w else w.

(** [std::condition_variable::notify_one]: if some thread is blocked in
    [wait], one of them (here the one the caller names, [k]) is woken;
    otherwise nothing happens and the notification is gone. *)
Definition notify_one (k : nat) (s : ThreadPool) : option ThreadPool :=
  if existsb is_blocked (_threads s)
  then w ← _threads s !! k;
       if is_blocked w then Some (set_worker k (wake w) s) else None
  else Some s.

(** [std::condition_variable::notify_all]. *)
Definition notify_all (s : ThreadPool) : ThreadPool :=
  with_threads (wake <$> _threads s) s.

(** [submit], first part: [std::bind] copies the argument values into the
    bind expression, [std::make_shared<std::packaged_task<RT()>>] puts it on
    the heap, and [_tasks.push] appends the closure holding the pointer.
    Only the push touches shared state.  The result is the pointer, from which
    [get_future] makes the returned handle. *)
Definition submit_push (f : callable) (args : list arg) (s : ThreadPool)
  : nat * ThreadPool :=
  let task_ptr := length (heap s) in
  let task := {| pt_fn := f; pt_bound := map (arg_value (vars s)) args;
                 pt_state := None |} in
  (task_ptr,
   with_submitting (S (submitting s))
     (with_tasks (SageQueue.push task_ptr (_tasks s))
        (with_heap (heap s ++ [task]) s))).

(** [submit], second part: [_tasks_empty.notify_one()]. *)
Definition submit_notify (k : nat) (s : ThreadPool) : option ThreadPool :=
  match submitting s with
  | O => None
  | S n => notify_one k (with_submitting n s)
  end.

(** A whole call of [submit] with no other thread moving in between. *)
Definition submit (f : callable) (args : list arg) (k : nat) (s : ThreadPool)
  : option (nat * ThreadPool) :=
  let '(h, s1) := submit_push f args s in
  s2 ← submit_notify k s1;
  Some (h, s2).

(** [std::future::get] on the handle [h]: [None] while the shared state is
    not ready (the reader blocks), then the value or the stored exception. *)
Definition future_get (h : nat) (s : ThreadPool) : option outcome :=
  pt ← heap s !! h; pt_state pt.

(** One statement of [shutdown()]; [None] when [join] blocks, and after the
    call has returned (the pool is shut down once). *)
Definition shutdown_step (s : ThreadPool) : option ThreadPool :=
  match sh s with
  | NotCalled => Some (with_sh NotifyAll (with_shutdown true s))
  | NotifyAll => Some (with_sh (Join 0) (notify_all s))
  | Join i =>
      match _threads s !! i with
      | None => Some (with_sh Returned_ s)
      | Some w =>
          if bool_decide (pc w = Exited) then Some (with_sh (Join (S i)) s)
          else None
      end
  | Returned_ => None
  end.

(** ** Runs *)

(** Which thread moves, and how. *)
Inductive label :=
| Worker (i : nat)                               (* worker i, one statement *)
| Spurious (i : nat)                             (* wait returns unnotified *)
| SubmitPush (f : callable) (args : list arg)    (* a submitter pushes      *)
| SubmitNotify (k : nat)                         (* a submitter notifies    *)
| Shutdown                                       (* shutdown(), one statement *)
| NewVar (v : Z)                                 (* a caller defines a variable *)
| Assign (a : nat) (v : Z).                      (* a caller assigns to one *)

Definition spurious (i : nat) (s : ThreadPool) : option ThreadPool :=
  w ← _threads s !! i;
  if is_blocked w then Some (set_worker i (wake w) s) else None.

Definition step (l : label) (s : ThreadPool) : option ThreadPool :=
  match l with
  | Worker i => ThreadWorker_step i s
  | Spurious i => spurious i s
  | SubmitPush f args => Some (snd (submit_push f args s))
  | SubmitNotify k => submit_notify k s
  | Shutdown => shutdown_step s
  | NewVar v => Some (with_vars (vars s ++ [v]) s)
  | Assign a v =>
      if bool_decide (a < length (vars s)) then Some (with_vars (<[a := v]> (vars s)) s)
      else None
  end.

Fixpoint run (tr : list label) (s : ThreadPool) : option ThreadPool :=
  match tr with
  | [] => Some s
  | l :: tr' => s' ← step l s; run tr' s'
  end.

(** The states of a pool built with [n] threads. *)
Definition reachable (n : Z) (s : ThreadPool) : Prop :=
  ∃ s0 tr, ThreadPool_ctor n = inr s0 ∧ run tr s0 = Some s.

(** * Invariants of the pool *)

(** The tasks in the order in which they were pushed: [submit_push] numbers
    them by their position on the heap in the step that pushes them. *)
Definition pushed (s : ThreadPool) : list nat := seq 0 (length (heap s)).

(** The control points inside the scope of [lock]. *)
Definition holds (p : wpc) : bool :=
  match p with
  | IfEmpty | IfShutdown | Wait | GetEmpty | Top | Pop
  | IfGotten | Invoke | Unlock | Fault => true
  | _ => false
  end.

(** The task a worker has removed from the queue and not finished. *)
Definition holding (w : ThreadWorker) : list nat :=
  match pc w with
  | IfGotten => if gotten w then option_list (func w) else []
  | Invoke => option_list (func w)
  | _ => []
  end.

Definition inflight (s : ThreadPool) : list nat :=
  match _mtx s with
  | Some i => from_option holding [] (_threads s !! i)
  | None => []
  end.

Definition mutex_inv (s : ThreadPool) : Prop :=
  ∀ i w, _threads s !! i = Some w → holds (pc w) = true ↔ _mtx s = Some i.

(** What a worker knows at each control point. *)
Definition local_ok (s : ThreadPool) (w : ThreadWorker) : Prop :=
  match pc w with
  | WhileEmpty | Exited => _shutdown s = true
  | Top => gotten w = true ∧ _tasks s ≠ []
  | Pop => gotten w = true ∧ is_Some (func w) ∧ SageQueue.top (_tasks s) = func w
  | IfGotten => gotten w = true → is_Some (func w)
  | Invoke => is_Some (func w)
  | Fault => False
  | _ => True
  end.

Definition sh_ok (s : ThreadPool) : Prop :=
  match sh s with
  | NotCalled => _shutdown s = false
  | NotifyAll => _shutdown s = true
  | Join k =>
      _shutdown s = true ∧
      ∀ i w, i < k → _threads s !! i = Some w → pc w = Exited
  | Returned_ =>
      _shutdown s = true ∧ ∀ i w, _threads s !! i = Some w → pc w = Exited
  end.

Record Inv (s : ThreadPool) : Prop := {
  inv_mutex : mutex_inv s;
  inv_owner : ∀ i, _mtx s = Some i → is_Some (_threads s !! i);
  inv_local : ∀ i w, _threads s !! i = Some w → local_ok s w;
  inv_fifo : pushed s = taken s ++ _tasks s;
  inv_run : taken s = executed s ++ inflight s;
  inv_state : ∀ t pt, heap s !! t = Some pt → is_Some (pt_state pt) ↔ t ∈ executed s;
  inv_sh : sh_ok s
}.

(** [exit_inv n0]: the first [n0] tasks exist, and a worker that has left
    its loop has seen the queue empty after they were pushed. *)
Definition exit_inv (n0 : nat) (s : ThreadPool) : Prop :=
  n0 ≤ length (heap s) ∧
  ∀ i w, _threads s !! i = Some w → pc w = Exited → n0 ≤ length (taken s).

(** ** Submissions and their results *)

(** The calls of [submit] along a run, each with the values its arguments
    had when it was made. *)
Fixpoint submissions (tr : list label) (s : ThreadPool)
  : list (callable * list Z) :=
  match tr with
  | [] => []
  | l :: tr' =>
      match step l s with
      | None => []
      | Some s' =>
          match l with
          | SubmitPush f args => [(f, map (arg_value (vars s)) args)]
          | _ => []
          end ++ submissions tr' s'
      end
  end.

(** The packaged task [pt] stands for the call of [f] on the values [vs]:
    not yet run, it holds [f] and [vs]; once run, its shared state is what
    [f] gave on [vs]. *)
Definition task_of (f : callable) (vs : list Z) (pt : packaged_task) : Prop :=
  pt_fn pt = f ∧
  match pt_state pt with
  | None => pt_bound pt = vs
  | Some o => ∃ mem, o = (f vs mem).1.1
  end.

(** A callable that writes through its parameters only. *)
Definition writes_params_only (f : callable) : Prop :=
  ∀ ps mem, (f ps mem).2 = mem.

(** ** test.hpp, and the scenarios of the specification *)

(** [void addition_store(int a, int b, int &ans) { ...; ans = a + b; }]:
    the third parameter is a reference, so the assignment lands in the cell
    it is bound to.  (The simulated delay has no effect on the state.) *)
Definition addition_store : callable := fun ps mem =>
  match ps with
  | [a; b; _] => (Returned VVoid, [a; b; (a + b)%Z], mem)
  | _ => (Returned VVoid, ps, mem)
  end.

(** [int addition_return(int a, int b) { ...; return a + b; }] *)
Definition addition_return : callable := fun ps mem =>
  match ps with
  | [a; b] => (Returned (VInt (a + b)), ps, mem)
  | _ => (Returned VVoid, ps, mem)
  end.

(** The task [f(x) = x * 2] of the first scenario. *)
Definition times_two : callable := fun ps mem =>
  match ps with
  | [x] => (Returned (VInt (x * 2)), ps, mem)
  | _ => (Returned VVoid, ps, mem)
  end.

(** A task that throws. *)
Definition throwing (what : string) : callable := fun ps mem =>
  (Threw what, ps, mem).

(** The state a run ends in (the start state if the run is not possible). *)
Definition after (tr : list label) (s : ThreadPool) : ThreadPool :=
  default s (run tr s).

(** One pass of worker [i] through its loop body when the queue is not
    empty and the mutex is free: from the loop test to the loop test. *)
Definition worker_round (i : nat) : list label := replicate 9 (Worker i).

(** No-loss-on-shutdown for a pool built with [n] threads: the tasks that
    exist when [shutdown] has not been called yet have each been run exactly
    once when it has returned. *)
Definition no_loss_on_shutdown (n : Z) : Prop :=
  ∀ s1 tr s2 t,
    reachable n s1 → sh s1 = NotCalled →
    run tr s1 = Some s2 → sh s2 = Returned_ →
    t < length (heap s1) →
    count_occ Nat.eq_dec (executed s2) t = 1.

(** A run in which nobody submits and no wait returns unnotified. *)
Definition quiet (l : label) : bool :=
  match l with
  | Spurious _ | SubmitPush _ _ => false
  | _ => true
  end.

(** A run in which worker [i] does not move. *)
Definition not_worker (i : nat) (l : label) : bool :=
  match l with
  | Worker j => negb (Nat.eqb i j)
  | _ => true
  end.

(** The first worker has tested the wait condition (queue empty, no
    shutdown) and is about to call [wait]. *)
Definition about_to_wait : list label := replicate 4 (Worker 0).

(** The values of an [int]. *)
Definition int_range (n : Z) : Prop := (- 2 ^ 31 ≤ n < 2 ^ 31)%Z.

(** Rejection of the non-positive thread counts at construction. *)
Definition rejects_non_positive : Prop :=
  ∀ n, int_range n → (n ≤ 0)%Z → ∃ e, ThreadPool_ctor n = inl e.

(** The first scenario: [for (int x = 1; x <= 10; x++) pool.submit(f, x);]
    with [x] the caller's variable 0, then the single worker running the ten
    tasks one after the other. *)
Definition scenario1_submit (x : Z) : list label :=
  [SubmitPush times_two [Lvalue 0]; SubmitNotify 0; Assign 0 (x + 1)%Z].

Definition scenario1 : list label :=
  NewVar 1%Z
  :: flat_map scenario1_submit [1; 2; 3; 4; 5; 6; 7; 8; 9; 10]%Z
  ++ flat_map worker_round (replicate 10 0).

(** The part of [TEST1::test] around [addition_store]: the caller's
    variables [a1], [b1], [c1] (variables 0, 1, 2), the call
    [pool.submit(addition_store, a1, b1, c1)], and a worker that takes the
    task and is about to return from [func()]. *)
Definition test_store (a1 b1 c1 : Z) : list label :=
  [NewVar a1; NewVar b1; NewVar c1;
   SubmitPush addition_store [Lvalue 0; Lvalue 1; Lvalue 2]; SubmitNotify 0]
  ++ replicate 7 (Worker 0).

(** * Further properties: definitions *)

(** [pops_allowed n ops]: run on a queue of [n] elements, no [pop] of
    [ops] finds the queue empty. *)
Fixpoint pops_allowed {T : Type} (n : nat) (ops : list (SageQueue.op T)) : bool :=
  match ops with
  | [] => true
  | SageQueue.OpPush _ :: ops' => pops_allowed (S n) ops'
  | SageQueue.OpPop :: ops' =>
      match n with
      | O => false
      | S m => pops_allowed m ops'
      end
  end.

(** Every worker thread has finished. *)
Definition halted (s : ThreadPool) : Prop :=
  ∀ i w, _threads s !! i = Some w → pc w = Exited.

(** The caller's memory as the caller's own statements leave it. *)
Fixpoint caller_vars (tr : list label) (vs : list Z) : list Z :=
  match tr with
  | [] => vs
  | NewVar v :: tr' => caller_vars tr' (vs ++ [v])
  | Assign a v :: tr' => caller_vars tr' (<[a := v]> vs)
  | _ :: tr' => caller_vars tr' vs
  end.

(** A step that submits nothing but a callable writing through its
    parameters only. *)
Definition submits_params_only (l : label) : Prop :=
  match l with
  | SubmitPush f _ => writes_params_only f
  | _ => True
  end.

(** A sequential use of the pool: the jobs are submitted one after the
    other, worker [i] runs [k] iterations of its loop, and [shutdown()] is
    called, each worker leaving its loop in turn before the joins. *)
Definition submit_all (jobs : list (callable * list arg)) : list label :=
  flat_map (λ j, [SubmitPush j.1 j.2; SubmitNotify 0]) jobs.

Definition drain (i k : nat) : list label :=
  flat_map worker_round (replicate k i).

Definition exit_all (n : nat) : list label :=
  flat_map (λ i, [Worker i; Worker i]) (seq 0 n).

Definition shutdown_all (n : nat) : list label :=
  [Shutdown; Shutdown] ++ exit_all n ++ replicate (S n) Shutdown.

(** A worker asleep in [wait] is notified by a [submit] and goes through the
    rest of its loop body. *)
Definition submit_and_wake (f : callable) (args : list arg) (i : nat)
  : list label :=
  [SubmitPush f args; SubmitNotify i] ++ replicate 7 (Worker i).

(** The part of [TEST1::test] around [addition_return]: the caller's
    variables [a2], [b2], the call [pool.submit(addition_return, a2, b2)],
    later assignments to both, and a worker running the task. *)
Definition test_return (a2 b2 : Z) : list label :=
  [NewVar a2; NewVar b2;
   SubmitPush addition_return [Lvalue 0; Lvalue 1]; SubmitNotify 0;
   Assign 0 0%Z; Assign 1 0%Z]
  ++ worker_round 0.

(** What the statements of the workers on an empty queue leave alone. *)
Definition same_tasks_state (s s' : ThreadPool) : Prop :=
  _tasks s' = _tasks s ∧ heap s' = heap s ∧ vars s' = vars s ∧
  taken s' = taken s ∧ executed s' = executed s ∧
  sh s' = sh s ∧ _shutdown s' = _shutdown s ∧ _mtx s' = _mtx s ∧
  submitting s' = submitting s.

(** An idle pool being shut down: every worker in turn goes to sleep in
    [wait] (five statements each); then [shutdown()] sets the flag and
    notifies all, every worker in turn returns from [wait] and leaves its
    loop (six statements each), and [shutdown()] joins them. *)
Definition each_worker (c n : nat) : list label :=
  flat_map (λ i, replicate c (Worker i)) (seq 0 n).

Definition sleep_all (n : nat) : list label := each_worker 5 n.

Definition shutdown_idle (n : nat) : list label :=
  [Shutdown; Shutdown] ++ each_worker 6 n ++ replicate (S n) Shutdown.

(** The caller is blocked in [get()] and no wait returns unnotified: only
    the threads of the pool may move. *)
Definition caller_blocked (l : label) : bool :=
  match l with
  | Worker _ | SubmitNotify _ => true
  | _ => false
  end.

(** The first scenario with the wake-ups lost: the worker tests the wait
    condition before the first submission, the caller makes its ten calls of
    [submit], and the worker then calls [wait]. *)
Definition scenario1_lost : list label :=
  about_to_wait
  ++ NewVar 1%Z :: flat_map scenario1_submit [1; 2; 3; 4; 5; 6; 7; 8; 9; 10]%Z
  ++ [Worker 0].

(** ** Lists of consecutive numbers *)

Lemma seq_app_prefix (n : nat) (l1 l2 : list nat) :
  seq 0 n = l1 ++ l2 → l1 = seq 0 (length l1).
Proof.
  intros H.
  assert (Hl : length l1 ≤ n).
  { apply (f_equal length) in H. rewrite length_seq, length_app in H. lia. }
  replace n with (length l1 + (n - length l1)) in H by lia.
  rewrite seq_app in H. apply app_inj_1 in H; [by destruct H|].
  by rewrite length_seq.
Qed.

Lemma seq_app_NoDup (n : nat) (l1 l2 : list nat) :
  seq 0 n = l1 ++ l2 → NoDup l1.
Proof.
  intros H. rewrite (seq_app_prefix _ _ _ H). apply NoDup_ListNoDup, seq_NoDup.
Qed.

Lemma seq_app_lt (n : nat) (l1 l2 : list nat) (t : nat) :
  seq 0 n = l1 ++ l2 → t ∈ l1 → t < n.
Proof.
  intros H Ht.
  assert (t ∈ seq 0 n) as Hin by (rewrite H; apply elem_of_app; by left).
  apply list_elem_of_In, in_seq in Hin. lia.
Qed.

(** ** The shape of a step *)

Lemma invoke_Some t s s' :
  invoke t s = Some s' →
  ∃ pt o ps vs,
    heap s !! t = Some pt ∧ pt_state pt = None ∧
    pt_fn pt (pt_bound pt) (vars s) = (o, ps, vs) ∧
    s' = with_executed (executed s ++ [t])
           (with_vars vs
              (with_heap (<[t := {| pt_fn := pt_fn pt; pt_bound := ps;
                                    pt_state := Some o |}]> (heap s)) s)).
Proof.
  unfold invoke. destruct (heap s !! t) as [pt|]; simpl; [|discriminate].
  destruct (pt_state pt) eqn:E; [discriminate|].
  destruct (pt_fn pt (pt_bound pt) (vars s)) as [[o ps] vs] eqn:F.
  intros [= <-]. by exists pt, o, ps, vs.
Qed.

Lemma invoke_None t s :
  invoke t s = None →
  heap s !! t = None ∨ ∃ pt, heap s !! t = Some pt ∧ is_Some (pt_state pt).
Proof.
  unfold invoke. destruct (heap s !! t) as [pt|]; simpl; [|by left].
  destruct (pt_state pt) eqn:E.
  - intros _. right. exists pt. rewrite E. eauto.
  - by destruct (pt_fn pt (pt_bound pt) (vars s)) as [[o ps] vs].
Qed.

(** Case analysis on the statement a worker runs. *)
Ltac worker_cases H :=
  unfold ThreadWorker_step in H;
  match type of H with
  | context [_threads ?s !! ?i] =>
      let w := fresh "w" in
      let Hw := fresh "Hw" in
      let Hpc := fresh "Hpc" in
      destruct (_threads s !! i) as [w|] eqn:Hw; [|discriminate];
      simpl in H;
      destruct (pc w) eqn:Hpc
  end;
  repeat match type of H with
    | context [invoke ?t ?s] =>
        let Hi := fresh "Hinv" in
        destruct (invoke t s) eqn:Hi;
        [apply invoke_Some in Hi;
         destruct Hi as (?pt & ?o & ?ps & ?vs & ?Hpt & ?Hst & ?Hfn & ->)|]
    | context [match ?x with _ => _ end] => destruct x eqn:?
    end;
  try discriminate; inversion H; subst; clear H.

(** Facts about the worker that moves, from the invariant. *)
Ltac use_inv HI i w Hw Hpc :=
  let Hm := fresh "Hmi" in
  let Hl := fresh "Hli" in
  pose proof (inv_mutex _ HI _ _ Hw) as Hm;
  pose proof (inv_local _ HI _ _ Hw) as Hl;
  unfold local_ok in Hl; rewrite Hpc in Hm, Hl; simpl in Hm, Hl.

Lemma holding_wake w : holding (wake w) = holding w.
Proof.
  unfold wake, is_blocked, holding. case_bool_decide as E; [|done].
  simpl. by rewrite E.
Qed.

Lemma holds_wake w : holds (pc (wake w)) = holds (pc w).
Proof.
  unfold wake, is_blocked. case_bool_decide as E; [|done]. simpl. by rewrite E.
Qed.

Lemma local_ok_wake s w : local_ok s w → local_ok s (wake w).
Proof.
  unfold wake, is_blocked, local_ok. case_bool_decide as E; [|done]. by simpl.
Qed.

Lemma exited_wake w : pc (wake w) = Exited ↔ pc w = Exited.
Proof.
  unfold wake, is_blocked. case_bool_decide as E; [|done]. simpl.
  split; [discriminate|congruence].
Qed.

Lemma Inv_no_fault s : Inv s → ∀ i w, _threads s !! i = Some w → pc w ≠ Fault.
Proof.
  intros HI i w Hw Hpc. pose proof (inv_local _ HI _ _ Hw) as Hl.
  unfold local_ok in Hl. by rewrite Hpc in Hl.
Qed.

(** A worker at [Invoke] can run its task: the task is on the heap and its
    shared state has not been written. *)
Lemma Inv_invoke_ready s i w t :
  Inv s → _threads s !! i = Some w → pc w = Invoke → func w = Some t →
  is_Some (invoke t s).
Proof.
  intros HI Hw Hpc Hf.
  pose proof (inv_mutex _ HI _ _ Hw) as Hm. rewrite Hpc in Hm. simpl in Hm.
  assert (_mtx s = Some i) as Hmtx by by apply Hm.
  pose proof (inv_run _ HI) as Hr. unfold inflight in Hr.
  rewrite Hmtx, Hw in Hr. simpl in Hr. unfold holding in Hr.
  rewrite Hpc, Hf in Hr. simpl in Hr.
  pose proof (inv_fifo _ HI) as Hq. unfold pushed in Hq.
  destruct (invoke t s) eqn:E; [eauto|]. exfalso.
  apply invoke_None in E as [E|(pt & E & Hs)].
  - apply lookup_ge_None in E.
    assert (t < length (heap s)); [|lia].
    eapply seq_app_lt; [exact Hq|]. rewrite Hr, elem_of_app, list_elem_of_singleton. by right.
  - apply (inv_state _ HI _ _ E) in Hs.
    pose proof (seq_app_NoDup _ _ _ Hq) as Hnd. rewrite Hr in Hnd.
    apply NoDup_app in Hnd as (_ & Hnd & _). apply (Hnd t Hs). by apply list_elem_of_singleton.
Qed.

(** ** Preservation by the statements of a worker *)

(** The statements that would lead to [Fault] cannot be run. *)
Ltac fault_contra HI :=
  exfalso;
  match goal with
  | Hl : _ ∧ _tasks ?s ≠ [], E : SageQueue.top (_tasks ?s) = None |- _ =>
      destruct Hl as [_ Hl]; by destruct (_tasks s)
  | Hl : _ ∧ is_Some (func ?w) ∧ SageQueue.top (_tasks ?s) = func ?w |- _ =>
      let t := fresh "t" in
      let Ht := fresh "Ht" in
      destruct Hl as (_ & [t Ht] & Hl); rewrite Ht in Hl;
      destruct (_tasks s); simpl in *; congruence
  | Hl : is_Some (func ?w), E : func ?w = None |- _ =>
      rewrite E in Hl; by destruct Hl
  | Hw : _threads ?s !! ?i = Some ?w, Hf : func ?w = Some ?t,
    E : invoke ?t ?s = None |- _ =>
      let R := fresh "R" in
      assert (is_Some (invoke t s)) as R
        by (eapply Inv_invoke_ready; eauto);
      rewrite E in R; by destruct R
  end.

Ltac split_worker i j :=
  destruct (decide (i = j)) as [->|?];
  [rewrite list_lookup_insert_eq by eauto using lookup_lt_Some
  |rewrite list_lookup_insert_ne by done].

Lemma mutex_inv_worker i s s' :
  mutex_inv s → ThreadWorker_step i s = Some s' → mutex_inv s'.
Proof.
  intros Hm H. worker_cases H.
  all: pose proof (Hm _ _ Hw) as Hi; rewrite Hpc in Hi; simpl in Hi.
  all: intros j wj; simpl.
  all: split_worker i j; [intros [= <-]; simpl|intros Hj; specialize (Hm _ _ Hj)].
  all: try (intuition congruence).
  all: try (destruct (_shutdown s); simpl; intuition congruence).
  all: try (destruct (_tasks s); simpl; intuition congruence).
  all: try (destruct (gotten w); simpl; intuition congruence).
Qed.

Lemma owner_worker i s s' :
  (∀ i, _mtx s = Some i → is_Some (_threads s !! i)) →
  ThreadWorker_step i s = Some s' →
  ∀ i, _mtx s' = Some i → is_Some (_threads s' !! i).
Proof.
  intros Ho H. worker_cases H.
  all: intros j; simpl; intros Hj.
  all: apply lookup_lt_is_Some; rewrite length_insert; apply lookup_lt_is_Some.
  all: try (by apply Ho).
  all: try discriminate.
  all: injection Hj as <-; eauto.
Qed.

Lemma local_ok_other s s' w :
  local_ok s w →
  _shutdown s' = _shutdown s →
  (holds (pc w) = true → _tasks s' = _tasks s) →
  local_ok s' w.
Proof.
  unfold local_ok. intros Hl Hf Hq.
  destruct (pc w); simpl in *; rewrite ?Hf, ?Hq; auto.
Qed.

Lemma local_worker i s s' :
  Inv s → ThreadWorker_step i s = Some s' →
  ∀ j w, _threads s' !! j = Some w → local_ok s' w.
Proof.
  intros HI H. worker_cases H.
  all: use_inv HI i w Hw Hpc.
  all: intros j wj; simpl.
  all: split_worker i j;
    [intros [= <-]
    |intros Hj; apply (local_ok_other s); [by apply (inv_local _ HI _ _ Hj)|done|simpl]].
  all: try done.
  all: try (intros Hh; apply (inv_mutex _ HI _ _ Hj) in Hh; intuition congruence).
  all: unfold local_ok; simpl.
  all: try (destruct (_shutdown s) eqn:?; simpl; done).
  all: try (destruct (_tasks s) eqn:?; simpl in *; done).
  all: try (destruct (gotten w) eqn:?; simpl in *; intuition eauto; done).
  all: try fault_contra HI.
Qed.

Lemma fifo_worker i s s' :
  Inv s → ThreadWorker_step i s = Some s' →
  pushed s' = taken s' ++ _tasks s'.
Proof.
  intros HI H. pose proof (inv_fifo _ HI) as Hq. worker_cases H.
  all: unfold pushed in *; simpl; rewrite ?length_insert; try done.
  destruct (_tasks s) as [|x q]; simpl in *; [done|].
  simplify_eq. by rewrite <- app_assoc.
Qed.

Lemma inflight_worker_other i w' s :
  _mtx s ≠ Some i → inflight (set_worker i w' s) = inflight s.
Proof.
  intros Hne. unfold inflight. simpl.
  destruct (_mtx s) as [j|]; [|done].
  rewrite list_lookup_insert_ne; [done|congruence].
Qed.

Lemma inflight_worker_own i w' s :
  _mtx s = Some i → is_Some (_threads s !! i) →
  inflight (set_worker i w' s) = holding w'.
Proof.
  intros Hm Hi. unfold inflight. simpl. rewrite Hm.
  rewrite list_lookup_insert_eq; [done|by apply lookup_lt_is_Some].
Qed.

Lemma inflight_own i w s :
  _mtx s = Some i → _threads s !! i = Some w → inflight s = holding w.
Proof. intros Hm Hw. unfold inflight. by rewrite Hm, Hw. Qed.

Lemma inflight_free s : _mtx s = None → inflight s = [].
Proof. intros Hm. unfold inflight. by rewrite Hm. Qed.

Lemma run_worker i s s' :
  Inv s → ThreadWorker_step i s = Some s' →
  taken s' = executed s' ++ inflight s'.
Proof.
  intros HI H. pose proof (inv_run _ HI) as Hr. worker_cases H.
  all: use_inv HI i w Hw Hpc.
  all: try fault_contra HI.
  all: unfold goto.
  (* statements outside the scope of the lock *)
  all: try (rewrite inflight_worker_other;
            [done|intros Hc; apply Hmi in Hc; discriminate]).
  (* taking the lock *)
  all: try (rewrite inflight_worker_own by (simpl; eauto); simpl;
            rewrite Hr, inflight_free by done; done).
  (* statements inside it *)
  all: assert (_mtx s = Some i) as Hmtx by (by apply Hmi).
  all: rewrite (inflight_own _ _ _ Hmtx Hw) in Hr; unfold holding in Hr;
       rewrite Hpc in Hr; simpl in Hr.
  all: try (rewrite inflight_free by done; simpl;
            rewrite ?app_nil_r in *; done).
  all: try (rewrite inflight_worker_own by (simpl; eauto);
            unfold holding; simpl; rewrite ?app_nil_r in *; try done).
  - destruct Hli as (-> & _ & Ht). rewrite <- Ht. rewrite Heqo. rewrite Hr. done.
  - by rewrite Heqb in Hr.
  - by rewrite Heqb, app_nil_r in Hr.
  - by rewrite Heqo in Hr.
Qed.

Lemma state_worker i s s' :
  Inv s → ThreadWorker_step i s = Some s' →
  ∀ t pt, heap s' !! t = Some pt → is_Some (pt_state pt) ↔ t ∈ executed s'.
Proof.
  intros HI H. pose proof (inv_state _ HI) as Hs. worker_cases H.
  all: try (simpl; done).
  intros t pt'. simpl. rewrite elem_of_app, list_elem_of_singleton.
  destruct (decide (n = t)) as [->|Hne].
  - rewrite list_lookup_insert_eq by eauto using lookup_lt_Some.
    intros [= <-]. simpl. split; eauto.
  - rewrite list_lookup_insert_ne by done. intros Ht.
    rewrite (Hs _ _ Ht). intuition congruence.
Qed.

Lemma sh_worker i s s' :
  Inv s → ThreadWorker_step i s = Some s' → sh_ok s'.
Proof.
  intros HI H. pose proof (inv_sh _ HI) as Hs. worker_cases H.
  all: use_inv HI i w Hw Hpc.
  all: unfold sh_ok in *; simpl.
  all: destruct (sh s) as [| |k|]; try done.
  all: destruct Hs as [Hf He]; split; [done|].
  all: intros j wj;
       try match goal with |- _ < _ → _ => intros Hlt end; simpl.
  all: split_worker i j; [|by eauto].
  all: try (specialize (He _ _ Hlt Hw); congruence).
  all: try (specialize (He _ _ Hw); congruence).
Qed.

Lemma Inv_worker i s s' :
  Inv s → ThreadWorker_step i s = Some s' → Inv s'.
Proof.
  intros HI H. split.
  - eapply mutex_inv_worker; [apply HI|done].
  - eapply owner_worker; [apply HI|done].
  - by eapply local_worker.
  - by eapply fifo_worker.
  - by eapply run_worker.
  - by eapply state_worker.
  - by eapply sh_worker.
Qed.

(** ** Preservation by the other threads *)

Lemma Inv_ext s s' :
  Inv s →
  _shutdown s' = _shutdown s → _tasks s' = _tasks s →
  _threads s' = _threads s → _mtx s' = _mtx s → heap s' = heap s →
  sh s' = sh s → taken s' = taken s → executed s' = executed s →
  Inv s'.
Proof.
  intros [] ? ? ? ? ? ? ? ?. destruct s, s'; simpl in *; subst.
  by split.
Qed.

Lemma Inv_wake k w s :
  Inv s → _threads s !! k = Some w → Inv (set_worker k (wake w) s).
Proof.
  intros HI Hw. split.
  - intros j wj. simpl. split_worker k j.
    + intros [= <-]. rewrite holds_wake. by apply (inv_mutex _ HI).
    + by apply (inv_mutex _ HI).
  - intros j Hj. simpl. apply lookup_lt_is_Some. rewrite length_insert.
    apply lookup_lt_is_Some. by apply (inv_owner _ HI).
  - intros j wj. simpl. split_worker k j.
    + intros [= <-]. apply local_ok_wake.
      by apply (local_ok_other s); [apply (inv_local _ HI _ _ Hw)|..].
    + intros Hj. by apply (local_ok_other s); [apply (inv_local _ HI _ _ Hj)|..].
  - apply (inv_fifo _ HI).
  - simpl. rewrite (inv_run _ HI). f_equal. unfold inflight. simpl.
    destruct (_mtx s) as [j|]; [|done].
    destruct (decide (k = j)) as [->|?].
    + rewrite list_lookup_insert_eq by eauto using lookup_lt_Some.
      rewrite Hw. simpl. by rewrite holding_wake.
    + by rewrite list_lookup_insert_ne.
  - apply (inv_state _ HI).
  - pose proof (inv_sh _ HI) as Hs. unfold sh_ok in *. simpl.
    destruct (sh s) as [| |n|]; try done.
    + destruct Hs as [Hf He]. split; [done|]. intros j wj Hlt.
      split_worker k j; [|by eauto].
      intros [= <-]. apply exited_wake. eauto.
    + destruct Hs as [Hf He]. split; [done|]. intros j wj.
      split_worker k j; [|by eauto].
      intros [= <-]. apply exited_wake. eauto.
Qed.

Lemma Inv_notify_all s : Inv s → Inv (notify_all s).
Proof.
  intros HI. split.
  - intros j wj. simpl. rewrite list_lookup_fmap.
    destruct (_threads s !! j) as [w|] eqn:Hw; [|done].
    intros [= <-]. rewrite holds_wake. by apply (inv_mutex _ HI).
  - intros j Hj. simpl. rewrite list_lookup_fmap.
    apply fmap_is_Some. by apply (inv_owner _ HI).
  - intros j wj. simpl. rewrite list_lookup_fmap.
    destruct (_threads s !! j) as [w|] eqn:Hw; [|done].
    intros [= <-]. apply local_ok_wake.
    by apply (local_ok_other s); [apply (inv_local _ HI _ _ Hw)|..].
  - apply (inv_fifo _ HI).
  - simpl. rewrite (inv_run _ HI). f_equal. unfold inflight. simpl.
    destruct (_mtx s) as [j|]; [|done]. rewrite list_lookup_fmap.
    destruct (_threads s !! j); simpl; [|done]. by rewrite holding_wake.
  - apply (inv_state _ HI).
  - pose proof (inv_sh _ HI) as Hs. unfold sh_ok in *. simpl.
    destruct (sh s) as [| |n|]; try done.
    + destruct Hs as [Hf He]. split; [done|]. intros j wj Hlt.
      rewrite list_lookup_fmap.
      destruct (_threads s !! j) as [w|] eqn:Hw; [|done].
      intros [= <-]. apply exited_wake. eauto.
    + destruct Hs as [Hf He]. split; [done|]. intros j wj.
      rewrite list_lookup_fmap.
      destruct (_threads s !! j) as [w|] eqn:Hw; [|done].
      intros [= <-]. apply exited_wake. eauto.
Qed.

Lemma Inv_notify_one k s s' : Inv s → notify_one k s = Some s' → Inv s'.
Proof.
  intros HI. unfold notify_one.
  destruct (existsb is_blocked (_threads s)); [|by intros [= <-]].
  destruct (_threads s !! k) as [w|] eqn:Hw; simpl; [|done].
  destruct (is_blocked w); [|done]. intros [= <-]. by apply Inv_wake.
Qed.

Lemma local_ok_push s w x :
  local_ok s w → local_ok (with_tasks (SageQueue.push x (_tasks s)) s) w.
Proof.
  unfold local_ok, SageQueue.push. destruct (pc w); simpl; try done.
  - intros [? ?]. split; [done|]. intros E. by apply app_eq_nil in E as [_ ?].
  - intros (? & Hf & Ht). split_and!; [done..|].
    destruct (_tasks s); simpl in *; [|done].
    rewrite <- Ht in Hf. by destruct Hf.
Qed.

Lemma Inv_push f args s : Inv s → Inv (snd (submit_push f args s)).
Proof.
  intros HI. pose proof (inv_fifo _ HI) as Hq. unfold pushed in Hq.
  split; simpl.
  - apply (inv_mutex _ HI).
  - apply (inv_owner _ HI).
  - intros j wj Hj. pose proof (inv_local _ HI _ _ Hj) as Hl.
    apply (local_ok_push _ _ (length (heap s))) in Hl.
    by apply (local_ok_other _ _ _ Hl).
  - unfold pushed, SageQueue.push. simpl.
    rewrite length_app. simpl. rewrite Nat.add_1_r, seq_S. simpl.
    by rewrite Hq, app_assoc.
  - apply (inv_run _ HI).
  - intros t pt Ht. apply lookup_app_Some in Ht as [Ht|[Hge Ht]].
    + by apply (inv_state _ HI).
    + apply list_lookup_singleton_Some in Ht as [Ht <-]. simpl.
      split; [by intros []|]. intros Hin. exfalso.
      assert (t < length (heap s)); [|lia].
      eapply seq_app_lt; [exact Hq|]. rewrite (inv_run _ HI).
      apply elem_of_app. by left.
  - apply (inv_sh _ HI).
Qed.

Lemma Inv_shutdown s s' : Inv s → shutdown_step s = Some s' → Inv s'.
Proof.
  intros HI. unfold shutdown_step.
  pose proof (inv_sh _ HI) as Hs. unfold sh_ok in Hs.
  destruct (sh s) as [| |k|] eqn:Hsh.
  - intros [= <-]. split; simpl; try apply HI.
    + intros j wj Hj. pose proof (inv_local _ HI _ _ Hj) as Hl.
      unfold local_ok in *. destruct (pc wj); simpl; auto.
    + done.
  - intros [= <-]. pose proof (Inv_notify_all _ HI) as HI'.
    split; simpl; try apply HI'.
    unfold sh_ok. simpl. split; [done|]. intros; lia.
  - destruct (_threads s !! k) as [w|] eqn:Hw.
    + case_bool_decide as He; [|done]. intros [= <-].
      split; simpl; try apply HI. unfold sh_ok. simpl.
      destruct Hs as [Hf Hk]. split; [done|]. intros j wj Hlt Hj.
      destruct (decide (j = k)) as [->|?]; [congruence|].
      apply (Hk j); [lia|done].
    + intros [= <-]. split; simpl; try apply HI. unfold sh_ok. simpl.
      destruct Hs as [Hf Hk]. split; [done|]. intros j wj Hj.
      apply (Hk j); [|done]. apply lookup_ge_None in Hw.
      apply lookup_lt_Some in Hj. lia.
  - done.
Qed.

Lemma Inv_step l s s' : Inv s → step l s = Some s' → Inv s'.
Proof.
  intros HI. destruct l as [i|i|f args|k| |v|a v]; simpl.
  - by apply Inv_worker.
  - unfold spurious. destruct (_threads s !! i) as [w|] eqn:Hw; simpl; [|done].
    destruct (is_blocked w); [|done]. intros [= <-]. by apply Inv_wake.
  - intros [= <-]. by apply Inv_push.
  - unfold submit_notify. destruct (submitting s) as [|n]; [done|].
    apply Inv_notify_one. by apply (Inv_ext s).
  - by apply Inv_shutdown.
  - intros [= <-]. by apply (Inv_ext s).
  - case_bool_decide; [|done]. intros [= <-]. by apply (Inv_ext s).
Qed.

Lemma Inv_run tr : ∀ s s', Inv s → run tr s = Some s' → Inv s'.
Proof.
  induction tr as [|l tr IH]; simpl; intros s s' HI.
  - by intros [= <-].
  - destruct (step l s) as [s1|] eqn:Hs; simpl; [|done].
    intros Hr. eapply IH; [|exact Hr]. by eapply Inv_step.
Qed.

Lemma Inv_ctor n s0 : ThreadPool_ctor n = inr s0 → Inv s0.
Proof.
  unfold ThreadPool_ctor. case_match; [done|]. intros [= <-].
  unfold fresh_pool. split; simpl; try done.
  - intros i w Hw. apply lookup_replicate in Hw as [-> _]. by simpl.
  - intros i w Hw. apply lookup_replicate in Hw as [-> _]. by unfold local_ok.
Qed.

Lemma Inv_reachable n s : reachable n s → Inv s.
Proof.
  intros (s0 & tr & H0 & Hr). eapply Inv_run; [|exact Hr]. by eapply Inv_ctor.
Qed.

(** ** What has left the queue before a worker exits *)

Lemma taken_length s : Inv s → length (taken s) ≤ length (heap s).
Proof.
  intros HI. pose proof (inv_fifo _ HI) as Hq. unfold pushed in Hq.
  apply (f_equal length) in Hq. rewrite length_seq, length_app in Hq. lia.
Qed.

Lemma exit_inv_worker n0 i s s' :
  Inv s → exit_inv n0 s → ThreadWorker_step i s = Some s' → exit_inv n0 s'.
Proof.
  intros HI [Hn He] H. pose proof (inv_fifo _ HI) as Hq. worker_cases H.
  all: split; simpl; rewrite ?length_insert, ?length_app; try done.
  all: intros j wj; split_worker i j;
    [intros [= <-]; simpl; try discriminate
    |intros Hj Hx; specialize (He _ _ Hj Hx); simpl; try lia].
  all: try (intros _; by eapply (He i w)).
  destruct (_tasks s); [|done]. intros _.
  unfold pushed in Hq. apply (f_equal length) in Hq.
  rewrite length_seq, length_app in Hq. simpl in Hq. lia.
Qed.

Lemma exit_inv_step n0 l s s' :
  Inv s → exit_inv n0 s → step l s = Some s' → exit_inv n0 s'.
Proof.
  intros HI [Hn He]. destruct l as [i|i|f args|k| |v|a v]; simpl.
  - by apply exit_inv_worker.
  - unfold spurious. destruct (_threads s !! i) as [w|] eqn:Hw; simpl; [|done].
    destruct (is_blocked w) eqn:Hb; [|done]. intros [= <-].
    split; [done|]. simpl. intros j wj. split_worker i j; [|by eauto].
    intros [= <-] Hx. rewrite exited_wake in Hx. simpl. exact (He _ _ Hw Hx).
  - intros [= <-]. split; simpl; [rewrite length_app; lia|done].
  - unfold submit_notify. destruct (submitting s) as [|m]; [done|].
    unfold notify_one. simpl.
    destruct (existsb is_blocked (_threads s)); [|by intros [= <-]].
    destruct (_threads s !! k) as [w|] eqn:Hw; simpl; [|done].
    destruct (is_blocked w); [|done]. intros [= <-].
    split; [done|]. simpl. intros j wj. split_worker k j; [|by eauto].
    intros [= <-] Hx. rewrite exited_wake in Hx. simpl. exact (He _ _ Hw Hx).
  - unfold shutdown_step. destruct (sh s) as [| |k|].
    + by intros [= <-].
    + intros [= <-]. split; [done|]. simpl. intros j wj.
      rewrite list_lookup_fmap.
      destruct (_threads s !! j) as [w|] eqn:Hw; [|done].
      intros [= <-] Hx. rewrite exited_wake in Hx. simpl. exact (He _ _ Hw Hx).
    + destruct (_threads s !! k); [case_bool_decide|]; try done;
        by intros [= <-].
    + done.
  - by intros [= <-].
  - case_bool_decide; [|done]. by intros [= <-].
Qed.

Lemma exit_inv_run n0 tr :
  ∀ s s', Inv s → exit_inv n0 s → run tr s = Some s' → exit_inv n0 s'.
Proof.
  induction tr as [|l tr IH]; simpl; intros s s' HI HE.
  - by intros [= <-].
  - destruct (step l s) as [s1|] eqn:Hs; simpl; [|done].
    intros Hr. eapply (IH s1); [by eapply Inv_step|by eapply exit_inv_step|done].
Qed.

Lemma exit_inv_not_called s :
  Inv s → sh s = NotCalled → exit_inv (length (heap s)) s.
Proof.
  intros HI Hsh. split; [done|]. intros i w Hw Hx. exfalso.
  pose proof (inv_sh _ HI) as Hs. unfold sh_ok in Hs. rewrite Hsh in Hs.
  pose proof (inv_local _ HI _ _ Hw) as Hl. unfold local_ok in Hl.
  rewrite Hx in Hl. congruence.
Qed.

(** Once [shutdown] has returned nothing is in flight: every task that
    left the queue has been run. *)
Lemma returned_taken_executed s :
  Inv s → sh s = Returned_ → taken s = executed s.
Proof.
  intros HI Hsh. pose proof (inv_sh _ HI) as Hs. unfold sh_ok in Hs.
  rewrite Hsh in Hs. destruct Hs as [_ Hx].
  rewrite (inv_run _ HI). unfold inflight.
  destruct (_mtx s) as [i|] eqn:Hm; [|by rewrite app_nil_r].
  destruct (inv_owner _ HI _ Hm) as [w Hw].
  apply (inv_mutex _ HI _ _ Hw) in Hm. by rewrite (Hx _ _ Hw) in Hm.
Qed.

Lemma count_occ_seq t m : t < m → count_occ Nat.eq_dec (seq 0 m) t = 1.
Proof.
  intros Hlt. apply NoDup_count_occ'; [apply seq_NoDup|].
  apply in_seq. lia.
Qed.

Lemma executed_NoDup s : Inv s → NoDup (executed s).
Proof.
  intros HI. pose proof (inv_fifo _ HI) as Hq. unfold pushed in Hq.
  apply seq_app_NoDup in Hq. rewrite (inv_run _ HI) in Hq.
  by apply NoDup_app in Hq as (? & _ & _).
Qed.

(** ** Futures and bound arguments *)

Lemma future_stable l s s' t o :
  future_get t s = Some o → step l s = Some s' → future_get t s' = Some o.
Proof.
  unfold future_get. intros Hf.
  destruct (heap s !! t) as [pt|] eqn:Ht; simpl in Hf; [|done].
  assert (∀ s1, heap s1 = heap s → heap s1 !! t ≫= pt_state = Some o) as Hsame.
  { intros s1 ->. by rewrite Ht. }
  destruct l as [i|i|f args|k| |v|a v]; simpl.
  - intros H. worker_cases H; try (by apply Hsame).
    simpl. destruct (decide (n = t)) as [->|?]; [congruence|].
    rewrite list_lookup_insert_ne by done. by rewrite Ht.
  - unfold spurious. destruct (_threads s !! i) as [w|]; simpl; [|done].
    destruct (is_blocked w); [|done]. intros [= <-]. by apply Hsame.
  - intros [= <-]. simpl. rewrite lookup_app_l by eauto using lookup_lt_Some.
    by rewrite Ht.
  - unfold submit_notify, notify_one. destruct (submitting s); [done|]. simpl.
    destruct (existsb is_blocked (_threads s)); [|intros [= <-]; by apply Hsame].
    destruct (_threads s !! k) as [w|]; simpl; [|done].
    destruct (is_blocked w); [|done]. intros [= <-]. by apply Hsame.
  - unfold shutdown_step. destruct (sh s) as [| |k|]; try done.
    + intros [= <-]. by apply Hsame.
    + intros [= <-]. by apply Hsame.
    + destruct (_threads s !! k); [case_bool_decide|]; try done;
        intros [= <-]; by apply Hsame.
  - intros [= <-]. by apply Hsame.
  - case_bool_decide; [|done]. intros [= <-]. by apply Hsame.
Qed.

Lemma future_stable_run tr : ∀ s s' t o,
  future_get t s = Some o → run tr s = Some s' → future_get t s' = Some o.
Proof.
  induction tr as [|l tr IH]; simpl; intros s s' t o Hf.
  - by intros [= <-].
  - destruct (step l s) as [s1|] eqn:Hs; simpl; [|done].
    apply IH. by eapply future_stable.
Qed.

Lemma task_of_step l s s' t f vs pt :
  heap s !! t = Some pt → task_of f vs pt → step l s = Some s' →
  ∃ pt', heap s' !! t = Some pt' ∧ task_of f vs pt'.
Proof.
  intros Ht Hok.
  assert (∀ s1, heap s1 = heap s →
            ∃ pt', heap s1 !! t = Some pt' ∧ task_of f vs pt') as Hsame.
  { intros s1 ->. eauto. }
  destruct l as [i|i|f' args|k| |v|a v]; simpl.
  - intros H. worker_cases H; try (by apply Hsame).
    simpl. destruct (decide (n = t)) as [->|?].
    + rewrite list_lookup_insert_eq by eauto using lookup_lt_Some.
      eexists; split; [done|]. simplify_eq. destruct Hok as [Hf Hb].
      rewrite Hst in Hb. split; simpl; [done|].
      exists (vars s). by rewrite <- Hf, <- Hb, Hfn.
    + rewrite list_lookup_insert_ne by done. eauto.
  - unfold spurious. destruct (_threads s !! i) as [w|]; simpl; [|done].
    destruct (is_blocked w); [|done]. intros [= <-]. by apply Hsame.
  - intros [= <-]. simpl. rewrite lookup_app_l by eauto using lookup_lt_Some.
    eauto.
  - unfold submit_notify, notify_one. destruct (submitting s); [done|]. simpl.
    destruct (existsb is_blocked (_threads s)); [|intros [= <-]; by apply Hsame].
    destruct (_threads s !! k) as [w|]; simpl; [|done].
    destruct (is_blocked w); [|done]. intros [= <-]. by apply Hsame.
  - unfold shutdown_step. destruct (sh s) as [| |k|]; try done.
    + intros [= <-]. by apply Hsame.
    + intros [= <-]. by apply Hsame.
    + destruct (_threads s !! k); [case_bool_decide|]; try done;
        intros [= <-]; by apply Hsame.
  - intros [= <-]. by apply Hsame.
  - case_bool_decide; [|done]. intros [= <-]. by apply Hsame.
Qed.

Lemma task_of_run tr : ∀ s s' t f vs pt,
  heap s !! t = Some pt → task_of f vs pt → run tr s = Some s' →
  ∃ pt', heap s' !! t = Some pt' ∧ task_of f vs pt'.
Proof.
  induction tr as [|l tr IH]; simpl; intros s s' t f vs pt Ht Hok.
  - intros [= <-]. eauto.
  - destruct (step l s) as [s1|] eqn:Hs; simpl; [|done].
    destruct (task_of_step _ _ _ _ _ _ _ Ht Hok Hs) as (pt1 & Ht1 & Hok1).
    by eapply IH.
Qed.

Lemma heap_length_step l s s' :
  step l s = Some s' →
  length (heap s') =
    match l with SubmitPush _ _ => S (length (heap s)) | _ => length (heap s) end.
Proof.
  destruct l as [i|i|f' args|k| |v|a v]; simpl.
  - intros H. worker_cases H; simpl; by rewrite ?length_insert.
  - unfold spurious. destruct (_threads s !! i) as [w|]; simpl; [|done].
    destruct (is_blocked w); [|done]. by intros [= <-].
  - intros [= <-]. simpl. rewrite length_app. simpl. lia.
  - unfold submit_notify, notify_one. destruct (submitting s); [done|]. simpl.
    destruct (existsb is_blocked (_threads s)); [|by intros [= <-]].
    destruct (_threads s !! k) as [w|]; simpl; [|done].
    destruct (is_blocked w); [|done]. by intros [= <-].
  - unfold shutdown_step. destruct (sh s) as [| |k|]; try done.
    + by intros [= <-].
    + by intros [= <-].
    + destruct (_threads s !! k); [case_bool_decide|]; try done;
        by intros [= <-].
  - by intros [= <-].
  - case_bool_decide; [|done]. by intros [= <-].
Qed.

Lemma submit_push_task_of f args s :
  ∃ pt, heap (snd (submit_push f args s)) !! length (heap s) = Some pt ∧
        task_of f (map (arg_value (vars s)) args) pt.
Proof.
  eexists. simpl. split.
  - rewrite lookup_app_r by done. by rewrite Nat.sub_diag.
  - by split.
Qed.

Lemma submissions_task_of tr : ∀ s s' k f vs,
  run tr s = Some s' → submissions tr s !! k = Some (f, vs) →
  ∃ pt, heap s' !! (length (heap s) + k) = Some pt ∧ task_of f vs pt.
Proof.
  induction tr as [|l tr IH]; simpl; intros s s' k f vs; [done|].
  destruct (step l s) as [s1|] eqn:Hs; simpl; [|done].
  intros Hr Hk. pose proof (heap_length_step _ _ _ Hs) as Hlen.
  destruct l as [i|i|f' args|j| |v|a v];
    try (simpl in Hk; rewrite <- Hlen; by eapply IH).
  simpl in Hk. destruct k as [|k]; simpl in Hk.
  - injection Hk as <- <-. rewrite Nat.add_0_r.
    simpl in Hs. injection Hs as <-.
    destruct (submit_push_task_of f' args s) as (pt & Hpt & Hok).
    by eapply task_of_run.
  - replace (length (heap s) + S k) with (length (heap s1) + k) by lia.
    by eapply IH.
Qed.

Lemma threads_length_step l s s' :
  step l s = Some s' → length (_threads s') = length (_threads s).
Proof.
  destruct l as [i|i|f args|k| |v|a v]; simpl.
  - intros H. worker_cases H; simpl; by rewrite length_insert.
  - unfold spurious. destruct (_threads s !! i); simpl; [|done].
    destruct (is_blocked _); [|done]. intros [= <-].
    simpl. by rewrite length_insert.
  - by intros [= <-].
  - unfold submit_notify, notify_one. destruct (submitting s); [done|]. simpl.
    destruct (existsb _ _); [|by intros [= <-]].
    destruct (_threads s !! k); simpl; [|done].
    destruct (is_blocked _); [|done]. intros [= <-].
    simpl. by rewrite length_insert.
  - unfold shutdown_step. destruct (sh s) as [| |k|]; try done.
    + by intros [= <-].
    + intros [= <-]. simpl. by rewrite length_fmap.
    + destruct (_threads s !! k); [case_bool_decide|]; try done;
        by intros [= <-].
  - by intros [= <-].
  - case_bool_decide; [|done]. by intros [= <-].
Qed.

Lemma threads_length_run tr : ∀ s s',
  run tr s = Some s' → length (_threads s') = length (_threads s).
Proof.
  induction tr as [|l tr IH]; simpl; intros s s'.
  - by intros [= <-].
  - destruct (step l s) as [s1|] eqn:Hs; simpl; [|done].
    intros Hr. rewrite (IH _ _ Hr). by eapply threads_length_step.
Qed.

(** ** While a task runs *)

(** The worker that runs a task owns [_mtx]. *)
Lemma invoke_owns_mutex s i w :
  Inv s → _threads s !! i = Some w → pc w = Invoke →
  _mtx s = Some i ∧
  ∀ j wj, j ≠ i → _threads s !! j = Some wj → holds (pc wj) = false.
Proof.
  intros HI Hw Hpc. pose proof (inv_mutex _ HI _ _ Hw) as Hm.
  rewrite Hpc in Hm. simpl in Hm.
  assert (_mtx s = Some i) as Hmtx by by apply Hm.
  split; [done|]. intros j wj Hne Hj.
  destruct (holds (pc wj)) eqn:Hh; [|done].
  apply (inv_mutex _ HI _ _ Hj) in Hh. congruence.
Qed.

(** As long as that worker does not move, nothing leaves the queue. *)
Lemma running_blocks_dequeue l s s' i w :
  Inv s → _threads s !! i = Some w → pc w = Invoke →
  not_worker i l = true → step l s = Some s' →
  taken s' = taken s ∧ _threads s' !! i = Some w.
Proof.
  intros HI Hw Hpc Hl Hs.
  destruct (invoke_owns_mutex _ _ _ HI Hw Hpc) as [Hmtx Hoth].
  assert (is_blocked w = false) as Hnb.
  { unfold is_blocked. rewrite Hpc. by case_bool_decide. }
  destruct l as [j|j|f args|k| |v|a v]; simpl in *.
  - apply negb_true_iff, Nat.eqb_neq in Hl.
    rename Hw into Hwi, Hpc into Hpci, w into wi.
    worker_cases Hs; simpl; rewrite ?list_lookup_insert_ne by done;
      try done.
    all: specialize (Hoth _ _ (not_eq_sym Hl) Hw); by rewrite Hpc in Hoth.
  - unfold spurious in Hs.
    destruct (_threads s !! j) as [wj|] eqn:Hj; simpl in Hs; [|done].
    destruct (is_blocked wj) eqn:Hb; [|done]. injection Hs as <-. simpl.
    split; [done|]. destruct (decide (j = i)) as [->|?]; [congruence|].
    by rewrite list_lookup_insert_ne.
  - by injection Hs as <-.
  - unfold submit_notify, notify_one in Hs.
    destruct (submitting s); [done|]. simpl in Hs.
    destruct (existsb _ _); [|by injection Hs as <-].
    destruct (_threads s !! k) as [wk|] eqn:Hk; simpl in Hs; [|done].
    destruct (is_blocked wk) eqn:Hb; [|done]. injection Hs as <-. simpl.
    split; [done|]. destruct (decide (k = i)) as [->|?]; [congruence|].
    by rewrite list_lookup_insert_ne.
  - unfold shutdown_step in Hs. destruct (sh s) as [| |k|]; try done.
    + by injection Hs as <-.
    + injection Hs as <-. simpl. split; [done|].
      rewrite list_lookup_fmap, Hw. simpl. unfold wake. by rewrite Hnb.
    + destruct (_threads s !! k); [case_bool_decide|]; try done;
        by injection Hs as <-.
  - by injection Hs as <-.
  - case_bool_decide; [|done]. by injection Hs as <-.
Qed.

Lemma running_blocks_dequeue_run tr : ∀ s s' i w,
  Inv s → _threads s !! i = Some w → pc w = Invoke →
  forallb (not_worker i) tr = true → run tr s = Some s' →
  taken s' = taken s ∧ _threads s' !! i = Some w.
Proof.
  induction tr as [|l tr IH]; simpl; intros s s' i w HI Hw Hpc Hq.
  - by intros [= <-].
  - apply andb_true_iff in Hq as [Hl Hq].
    destruct (step l s) as [s1|] eqn:Hs; simpl; [|done]. intros Hr.
    destruct (running_blocks_dequeue _ _ _ _ _ HI Hw Hpc Hl Hs) as [Ht Hw1].
    destruct (IH s1 s' i w) as [Ht' Hw']; try done.
    { by eapply Inv_step. }
    split; [congruence|done].
Qed.

(** ** A worker asleep with nobody left to wake it *)

Lemma asleep_step l s s' :
  pc <$> _threads s = [Blocked] → sh s = Join 0 → submitting s = 0 →
  quiet l = true → step l s = Some s' →
  pc <$> _threads s' = [Blocked] ∧ sh s' = Join 0 ∧ submitting s' = 0.
Proof.
  intros Hth Hsh Hsub Hq.
  destruct (_threads s) as [|w [|? ?]] eqn:Ht; try done.
  injection Hth as Hpc.
  destruct l as [i|i|f args|k| |v|a v]; simpl in *; try done.
  - unfold ThreadWorker_step. rewrite Ht.
    destruct i as [|i]; simpl; [|done]. by rewrite Hpc.
  - unfold submit_notify. by rewrite Hsub.
  - unfold shutdown_step. rewrite Hsh, Ht. simpl.
    case_bool_decide; [congruence|done].
  - intros [= <-]. simpl. rewrite Ht. simpl. by rewrite Hpc.
  - case_bool_decide; [|done]. intros [= <-]. simpl. rewrite Ht. simpl.
    by rewrite Hpc.
Qed.

Lemma asleep_run tr : ∀ s s',
  pc <$> _threads s = [Blocked] → sh s = Join 0 → submitting s = 0 →
  forallb quiet tr = true → run tr s = Some s' →
  pc <$> _threads s' = [Blocked] ∧ sh s' = Join 0 ∧ submitting s' = 0.
Proof.
  induction tr as [|l tr IH]; simpl; intros s s' Hth Hsh Hsub Hq.
  - by intros [= <-].
  - apply andb_true_iff in Hq as [Hl Hq].
    destruct (step l s) as [s1|] eqn:Hs; simpl; [|done]. intros Hr.
    destruct (asleep_step _ _ _ Hth Hsh Hsub Hl Hs) as (? & ? & ?).
    by eapply IH.
Qed.

(** ** A pool without workers *)

Lemma no_worker_step l s s' :
  _threads s = [] → step l s = Some s' →
  _threads s' = [] ∧ executed s' = executed s ∧
  (∀ t, t < length (heap s) → future_get t s' = future_get t s) ∧
  ∃ q, _tasks s' = _tasks s ++ q.
Proof.
  intros Ht.
  assert (∀ s1, _threads s1 = _threads s → executed s1 = executed s →
                heap s1 = heap s → _tasks s1 = _tasks s →
            _threads s1 = [] ∧ executed s1 = executed s ∧
            (∀ t, t < length (heap s) → future_get t s1 = future_get t s) ∧
            ∃ q, _tasks s1 = _tasks s ++ q) as Hsame.
  { intros s1 H1 H2 H3 H4. split_and!; [congruence|done| |].
    - intros t _. unfold future_get. by rewrite H3.
    - exists []. by rewrite app_nil_r. }
  destruct l as [i|i|f args|k| |v|a v]; simpl.
  - unfold ThreadWorker_step. by rewrite Ht.
  - unfold spurious. by rewrite Ht.
  - intros [= <-]. simpl. split_and!; try done.
    + intros t Hlt. unfold future_get. simpl. by rewrite lookup_app_l.
    + eauto.
  - unfold submit_notify, notify_one. destruct (submitting s); [done|]. simpl.
    rewrite Ht. simpl. intros [= <-]. by apply Hsame.
  - unfold shutdown_step. destruct (sh s) as [| |k|]; try done.
    + intros [= <-]. by apply Hsame.
    + intros [= <-]. apply Hsame; try done. simpl. by rewrite Ht.
    + rewrite Ht. simpl. intros [= <-]. by apply Hsame.
  - intros [= <-]. by apply Hsame.
  - case_bool_decide; [|done]. intros [= <-]. by apply Hsame.
Qed.

Lemma no_worker_run tr : ∀ s s',
  _threads s = [] → run tr s = Some s' →
  executed s' = executed s ∧
  (∀ t, t < length (heap s) → future_get t s' = future_get t s) ∧
  ∃ q, _tasks s' = _tasks s ++ q.
Proof.
  induction tr as [|l tr IH]; simpl; intros s s' Ht.
  - intros [= <-]. split_and!; try done. exists []. by rewrite app_nil_r.
  - destruct (step l s) as [s1|] eqn:Hs; simpl; [|done]. intros Hr.
    destruct (no_worker_step _ _ _ Ht Hs) as (Ht1 & He1 & Hf1 & q1 & Hq1).
    destruct (IH _ _ Ht1 Hr) as (He & Hf & q & Hq).
    split_and!.
    + congruence.
    + intros t Hlt. rewrite Hf, Hf1; [done..|].
      pose proof (heap_length_step _ _ _ Hs). destruct l; lia.
    + exists (q1 ++ q). by rewrite Hq, Hq1, app_assoc.
Qed.

(** * The properties of the specification *)

(** ** The queue alone *)

Lemma SageQueue_run_ops_fifo {T : Type} (ops : list (SageQueue.op T)) :
  ∀ q out q' out',
    SageQueue.run_ops ops q out = Some (q', out') →
    out ++ q ++ SageQueue.pushes ops = out' ++ q'.
Proof.
  induction ops as [|[x|] ops IH]; simpl; intros q out q' out'.
  - intros [= <- <-]. by rewrite app_nil_r.
  - intros H. apply IH in H. rewrite <- H. unfold SageQueue.push.
    by rewrite <- !app_assoc.
  - destruct q as [|y q]; simpl; [done|].
    intros H. apply IH in H. rewrite <- H. by rewrite <- !app_assoc.
Qed.

(** Pops on the queue alone come out in the order of the pushes. *)
Lemma SageQueue_fifo {T : Type} (ops : list (SageQueue.op T)) q out :
  SageQueue.run_ops ops [] [] = Some (q, out) →
  SageQueue.pushes ops = out ++ q.
Proof. intros H. by apply SageQueue_run_ops_fifo in H. Qed.

(** ** C1: no loss on shutdown *)

(** C1, as stated, fails: a pool built with thread count 0 has nobody to run
    the task that was enqueued before [shutdown()], and [shutdown()]
    returns all the same. *)
Lemma C1_no_workers_no_execution : ¬ no_loss_on_shutdown 0.
Proof.
  intros H.
  specialize (H (after [SubmitPush times_two [Rvalue 21%Z]; SubmitNotify 0]
                       (fresh_pool 0))
                [Shutdown; Shutdown; Shutdown]
                (after [SubmitPush times_two [Rvalue 21%Z]; SubmitNotify 0;
                        Shutdown; Shutdown; Shutdown] (fresh_pool 0))
                0).
  assert (0 = 1) as E; [|discriminate].
  apply H.
  - exists (fresh_pool 0), [SubmitPush times_two [Rvalue 21%Z]; SubmitNotify 0].
    split; vm_compute; reflexivity.
  - vm_compute; reflexivity.
  - vm_compute; reflexivity.
  - vm_compute; reflexivity.
  - simpl. lia.
Qed.

(** C1 (amended): in a pool with at least one worker, when [shutdown()] has
    returned, every worker has left its loop, every task that was enqueued
    before [shutdown()] was called has been run exactly once, and no task has
    been run twice. *)
Theorem C1_no_loss_with_a_worker (n : Z) (s1 s2 : ThreadPool)
    (tr : list label) (t : nat) :
  reachable n s1 → 0 < length (_threads s1) → sh s1 = NotCalled →
  run tr s1 = Some s2 → sh s2 = Returned_ →
  t < length (heap s1) →
  count_occ Nat.eq_dec (executed s2) t = 1 ∧
  NoDup (executed s2) ∧
  (∀ i w, _threads s2 !! i = Some w → pc w = Exited).
Proof.
  intros Hreach Hw Hsh Hrun Hret Ht.
  pose proof (Inv_reachable _ _ Hreach) as HI1.
  pose proof (Inv_run _ _ _ HI1 Hrun) as HI2.
  pose proof (exit_inv_run _ _ _ _ HI1 (exit_inv_not_called _ HI1 Hsh) Hrun)
    as [_ Hex].
  pose proof (inv_sh _ HI2) as Hs. unfold sh_ok in Hs. rewrite Hret in Hs.
  destruct Hs as [_ Hall].
  pose proof (threads_length_run _ _ _ Hrun) as Hlen.
  destruct (lookup_lt_is_Some_2 (_threads s2) 0) as [w0 Hw0]; [lia|].
  specialize (Hex _ _ Hw0 (Hall _ _ Hw0)).
  pose proof (inv_fifo _ HI2) as Hq. unfold pushed in Hq.
  rewrite <- (returned_taken_executed _ HI2 Hret).
  split_and!.
  - rewrite (seq_app_prefix _ _ _ Hq). apply count_occ_seq. lia.
  - rewrite (returned_taken_executed _ HI2 Hret). by apply executed_NoDup.
  - done.
Qed.

Lemma C1_no_loss_with_a_worker_witness :
  let s1 := after [SubmitPush times_two [Rvalue 21%Z]; SubmitNotify 0]
                  (fresh_pool 1) in
  let tr := worker_round 0 ++
            [Shutdown; Shutdown; Worker 0; Worker 0; Shutdown; Shutdown] in
  count_occ Nat.eq_dec (executed (after tr s1)) 0 = 1 ∧
  NoDup (executed (after tr s1)) ∧
  (∀ i w, _threads (after tr s1) !! i = Some w → pc w = Exited).
Proof.
  intros s1 tr.
  apply (C1_no_loss_with_a_worker 1 s1 (after tr s1) tr 0).
  - exists (fresh_pool 1), [SubmitPush times_two [Rvalue 21%Z]; SubmitNotify 0].
    split; vm_compute; reflexivity.
  - simpl. lia.
  - vm_compute; reflexivity.
  - vm_compute; reflexivity.
  - vm_compute; reflexivity.
  - simpl. lia.
Defined.

(** ** C5: dequeue order *)



(** ** C8: the precondition of [pop] and [top] *)

(** C8: [pop] and [top] are undefined on the empty queue, and a worker
    that stands at its call of [top] or of [pop] finds the queue non-empty
    (both calls are defined), so that no worker ever takes the undefined
    branch. *)
Theorem C8_dequeue_sites_non_empty (n : Z) (s : ThreadPool) (i : nat)
    (w : ThreadWorker) :
  reachable n s → _threads s !! i = Some w →
  SageQueue.top (@nil nat) = None ∧ SageQueue.pop (@nil nat) = None ∧
  (pc w = Top ∨ pc w = Pop →
     SageQueue.empty (_tasks s) = false ∧
     is_Some (SageQueue.top (_tasks s)) ∧ is_Some (SageQueue.pop (_tasks s))) ∧
  pc w ≠ Fault ∧
  (∀ s', ThreadWorker_step i s = Some s' →
     ∀ w', _threads s' !! i = Some w' → pc w' ≠ Fault).
Proof.
  intros Hreach Hw. pose proof (Inv_reachable _ _ Hreach) as HI.
  split_and!; try done.
  - pose proof (inv_local _ HI _ _ Hw) as Hl. unfold local_ok in Hl.
    intros [Hpc|Hpc]; rewrite Hpc in Hl.
    + destruct Hl as [_ Hl]. destruct (_tasks s); [done|]. simpl. eauto.
    + destruct Hl as (_ & [t Ht] & Hl). rewrite Ht in Hl.
      destruct (_tasks s); [done|]. simpl. eauto.
  - by eapply Inv_no_fault.
  - intros s' Hs w' Hw'. eapply Inv_no_fault; [|exact Hw'].
    by eapply Inv_worker.
Qed.

Lemma C8_dequeue_sites_non_empty_witness :
  let s := after ([SubmitPush times_two [Rvalue 1%Z]; SubmitNotify 0]
                  ++ replicate 4 (Worker 0))
                 (fresh_pool 1) in
  let w := {| pc := Top; func := None; gotten := true |} in
  SageQueue.top (@nil nat) = None ∧ SageQueue.pop (@nil nat) = None ∧
  (pc w = Top ∨ pc w = Pop →
     SageQueue.empty (_tasks s) = false ∧
     is_Some (SageQueue.top (_tasks s)) ∧ is_Some (SageQueue.pop (_tasks s))) ∧
  pc w ≠ Fault ∧
  (∀ s', ThreadWorker_step 0 s = Some s' →
     ∀ w', _threads s' !! 0 = Some w' → pc w' ≠ Fault).
Proof.
  intros s w. apply (C8_dequeue_sites_non_empty 1 s 0 w).
  - exists (fresh_pool 1),
      ([SubmitPush times_two [Rvalue 1%Z]; SubmitNotify 0]
       ++ replicate 4 (Worker 0)).
    split; vm_compute; reflexivity.
  - vm_compute; reflexivity.
Defined.

(** ** C2: the test of the wait condition and the wait *)

(** C2 does not hold of the code: [submit] pushes and [shutdown] sets the
    flag without taking [_mtx], so either can happen between a worker's test
    of the wait condition and its call of [wait].  With one worker:

    - the worker tests the condition, [shutdown()] sets the flag and
      notifies (nobody waits yet), the worker blocks.  It is now asleep with
      the flag set, [shutdown()] is blocked in [join], and without a further
      [submit] or a spurious wake-up no thread ever moves again;
    - the worker tests the condition, [submit] pushes a task and notifies
      (nobody waits yet), the worker blocks.  It is now asleep with the task
      in the queue and the handle not ready. *)
Theorem C2_worker_blocks_with_work_pending :
  let sa := after (about_to_wait ++ [Shutdown; Shutdown; Worker 0])
                  (fresh_pool 1) in
  let sb := after (about_to_wait ++
                   [SubmitPush times_two [Rvalue 21%Z]; SubmitNotify 0;
                    Worker 0])
                  (fresh_pool 1) in
  (reachable 1 sa ∧
   pc <$> _threads sa = [Blocked] ∧ _shutdown sa = true ∧
   ThreadWorker_step 0 sa = None ∧ shutdown_step sa = None ∧
   ∀ tr s', forallb quiet tr = true → run tr sa = Some s' →
            pc <$> _threads s' = [Blocked] ∧ sh s' = Join 0) ∧
  (reachable 1 sb ∧
   pc <$> _threads sb = [Blocked] ∧ _tasks sb = [0] ∧ submitting sb = 0 ∧
   ThreadWorker_step 0 sb = None ∧ future_get 0 sb = None).
Proof.
  intros sa sb. split.
  - split_and!; try (vm_compute; reflexivity).
    + exists (fresh_pool 1), (about_to_wait ++ [Shutdown; Shutdown; Worker 0]).
      split; vm_compute; reflexivity.
    + intros tr s' Hq Hr.
      destruct (asleep_run tr sa s') as (? & ? & _); try done;
        vm_compute; reflexivity.
  - split_and!; try (vm_compute; reflexivity).
    exists (fresh_pool 1),
      (about_to_wait ++
       [SubmitPush times_two [Rvalue 21%Z]; SubmitNotify 0; Worker 0]).
    split; vm_compute; reflexivity.
Qed.

(** ** C3: the lock while a task runs *)

(** C3 does not hold of the code: [lock] lives until the end of the loop
    body, and [func()] is called inside the body.  With two workers and two
    queued tasks, once the first worker is running the first task it owns
    [_mtx], the second worker cannot get past its [lock], and the second
    task stays in the queue for as long as the first worker does not
    move. *)
Theorem C3_task_runs_under_the_lock :
  let s := after ([SubmitPush times_two [Rvalue 1%Z]; SubmitNotify 0;
                   SubmitPush times_two [Rvalue 2%Z]; SubmitNotify 0]
                  ++ replicate 7 (Worker 0) ++ [Worker 1])
                 (fresh_pool 2) in
  reachable 2 s ∧
  pc <$> _threads s = [Invoke; Lock] ∧
  _mtx s = Some 0 ∧ _tasks s = [1] ∧ taken s = [0] ∧
  ThreadWorker_step 1 s = None ∧
  ∀ tr s', forallb (not_worker 0) tr = true → run tr s = Some s' →
           taken s' = [0] ∧ pc <$> _threads s' !! 0 = Some Invoke.
Proof.
  intros s.
  assert (reachable 2 s) as Hreach.
  { exists (fresh_pool 2),
      ([SubmitPush times_two [Rvalue 1%Z]; SubmitNotify 0;
        SubmitPush times_two [Rvalue 2%Z]; SubmitNotify 0]
       ++ replicate 7 (Worker 0) ++ [Worker 1]).
    split; vm_compute; reflexivity. }
  split_and!; try done; try (vm_compute; reflexivity).
  intros tr s' Hq Hr.
  assert (_threads s !! 0
          = Some {| pc := Invoke; func := Some 0; gotten := true |}) as Hw0
    by (vm_compute; reflexivity).
  destruct (running_blocks_dequeue_run tr s s' 0 _
              (Inv_reachable _ _ Hreach) Hw0 eq_refl Hq Hr) as [Ht Hw].
  split; [rewrite Ht; vm_compute; reflexivity|].
  by rewrite Hw.
Qed.

(** ** C4: a task that throws *)

(** C4: when the callable of a task throws while a worker runs it, the
    call of the packaged task returns normally: the worker goes on to the end
    of its loop body, the exception is in the shared state, and from then on
    reading the handle gives that exception, while no worker ever stops on a
    fault. *)
Theorem C4_exception_reaches_the_handle (n : Z) (s : ThreadPool) (i : nat)
    (w : ThreadWorker) (t : nat) (pt : packaged_task) (e : string)
    (ps mem : list Z) :
  reachable n s →
  _threads s !! i = Some w → pc w = Invoke → func w = Some t →
  heap s !! t = Some pt →
  pt_fn pt (pt_bound pt) (vars s) = (Threw e, ps, mem) →
  ∃ s',
    ThreadWorker_step i s = Some s' ∧
    pc <$> _threads s' !! i = Some Unlock ∧
    future_get t s' = Some (Threw e) ∧
    ∀ tr s'', run tr s' = Some s'' →
      future_get t s'' = Some (Threw e) ∧
      ∀ j wj, _threads s'' !! j = Some wj → pc wj ≠ Fault.
Proof.
  intros Hreach Hw Hpc Hf Ht Hfn.
  pose proof (Inv_reachable _ _ Hreach) as HI.
  destruct (Inv_invoke_ready _ _ _ _ HI Hw Hpc Hf) as [s0 Hinv].
  pose proof Hinv as Hshape.
  apply invoke_Some in Hshape as (pt' & o & ps' & vs' & Ht' & Hst & Hfn' & ->).
  assert (pt' = pt) as -> by congruence.
  rewrite Hfn in Hfn'. injection Hfn' as <- <- <-.
  eexists. split_and!.
  - unfold ThreadWorker_step. rewrite Hw. simpl. by rewrite Hpc, Hf, Hinv.
  - simpl. rewrite list_lookup_insert_eq by eauto using lookup_lt_Some. done.
  - unfold future_get. simpl.
    rewrite list_lookup_insert_eq by eauto using lookup_lt_Some. done.
  - intros tr s'' Hr.
    assert (ThreadWorker_step i s = Some
              (goto i Unlock w
                 (with_executed (executed s ++ [t])
                    (with_vars mem
                       (with_heap
                          (<[t:={| pt_fn := pt_fn pt; pt_bound := ps;
                                   pt_state := Some (Threw e) |}]> (heap s))
                          s))))) as Hstep.
    { unfold ThreadWorker_step. rewrite Hw. simpl. by rewrite Hpc, Hf, Hinv. }
    split.
    + eapply future_stable_run; [|exact Hr]. unfold future_get. simpl.
      rewrite list_lookup_insert_eq by eauto using lookup_lt_Some. done.
    + apply Inv_no_fault. eapply Inv_run; [|exact Hr].
      by eapply Inv_worker.
Qed.

Lemma C4_exception_reaches_the_handle_witness :
  let s := after ([SubmitPush (throwing "std::runtime_error") [];
                   SubmitNotify 0] ++ replicate 7 (Worker 0))
                 (fresh_pool 1) in
  ∃ s',
    ThreadWorker_step 0 s = Some s' ∧
    pc <$> _threads s' !! 0 = Some Unlock ∧
    future_get 0 s' = Some (Threw "std::runtime_error") ∧
    ∀ tr s'', run tr s' = Some s'' →
      future_get 0 s'' = Some (Threw "std::runtime_error") ∧
      ∀ j wj, _threads s'' !! j = Some wj → pc wj ≠ Fault.
Proof.
  intros s.
  apply (C4_exception_reaches_the_handle 1 s 0
           {| pc := Invoke; func := Some 0; gotten := true |} 0
           {| pt_fn := throwing "std::runtime_error"; pt_bound := [];
              pt_state := None |}
           "std::runtime_error" [] []).
  - exists (fresh_pool 1),
      ([SubmitPush (throwing "std::runtime_error") []; SubmitNotify 0]
       ++ replicate 7 (Worker 0)).
    split; vm_compute; reflexivity.
  - vm_compute; reflexivity.
  - reflexivity.
  - reflexivity.
  - vm_compute; reflexivity.
  - vm_compute; reflexivity.
Defined.

(** ** C6: the thread count *)

(** C6, as stated, fails: a thread count of 0 is accepted. *)
Lemma C6_zero_threads_accepted : ¬ rejects_non_positive.
Proof.
  intros H. destruct (H 0%Z) as [e He].
  - unfold int_range. lia.
  - lia.
  - vm_compute in He. discriminate.
Qed.

(** C6 (amended): the constructor does not test the thread count.  A
    negative count fails, synchronously, because the vector of threads cannot
    be that long once the count is converted to an unsigned size; any other
    count, 0 included, gives a running pool with that many workers, so with
    no worker at all for 0. *)
Theorem C6_only_negative_counts_fail (n : Z) :
  int_range n →
  ((n < 0)%Z → ThreadPool_ctor n = inl length_error) ∧
  ((0 ≤ n)%Z →
     ThreadPool_ctor n = inr (fresh_pool (Z.to_nat n)) ∧
     length (_threads (fresh_pool (Z.to_nat n))) = Z.to_nat n ∧
     _shutdown (fresh_pool (Z.to_nat n)) = false) ∧
  (n = 0%Z → ∃ s, ThreadPool_ctor n = inr s ∧ _threads s = []).
Proof.
  unfold int_range. intros Hn.
  assert (vector_max_size = 1152921504606846975%Z) as Hmax by reflexivity.
  unfold ThreadPool_ctor, int_to_size_t. rewrite Hmax. split_and!.
  - intros Hneg.
    assert ((n mod 2 ^ 64)%Z = (n + 2 ^ 64)%Z) as ->.
    { symmetry. apply (Z.mod_unique n (2 ^ 64) (-1) (n + 2 ^ 64)); lia. }
    case_match eqn:E; [done|]. apply Z.ltb_ge in E. lia.
  - intros Hpos. rewrite Z.mod_small by lia.
    case_match eqn:E; [apply Z.ltb_lt in E; lia|].
    split_and!; [done| |done]. simpl. by rewrite length_replicate.
  - intros ->. exists (fresh_pool 0). by vm_compute.
Qed.

Lemma C6_only_negative_counts_fail_witness :
  ((0 < 0)%Z → ThreadPool_ctor 0 = inl length_error) ∧
  ((0 ≤ 0)%Z →
     ThreadPool_ctor 0 = inr (fresh_pool (Z.to_nat 0)) ∧
     length (_threads (fresh_pool (Z.to_nat 0))) = Z.to_nat 0 ∧
     _shutdown (fresh_pool (Z.to_nat 0)) = false) ∧
  (0%Z = 0%Z → ∃ s, ThreadPool_ctor 0 = inr s ∧ _threads s = []).
Proof.
  apply (C6_only_negative_counts_fail 0). unfold int_range. lia.
Defined.

(** ** C7: the handles of the first scenario *)

Lemma asleep_alone_step l s :
  pc <$> _threads s = [Blocked] → submitting s = 0 →
  caller_blocked l = true → step l s = None.
Proof.
  intros Hth Hsub Hl.
  destruct (_threads s) as [|w [|? ?]] eqn:Ht; try done.
  injection Hth as Hpc.
  destruct l as [i|i|f args|k| |v|a v]; simpl in *; try done.
  - unfold ThreadWorker_step. rewrite Ht.
    destruct i as [|i]; simpl; [|done]. by rewrite Hpc.
  - unfold submit_notify. by rewrite Hsub.
Qed.

Lemma asleep_alone_run tr s s' :
  pc <$> _threads s = [Blocked] → submitting s = 0 →
  forallb caller_blocked tr = true → run tr s = Some s' →
  tr = [] ∧ s' = s.
Proof.
  intros Hth Hsub Hq. destruct tr as [|l tr]; simpl.
  - by intros [= <-].
  - simpl in Hq. apply andb_true_iff in Hq as [Hl _].
    by rewrite (asleep_alone_step _ _ Hth Hsub Hl).
Qed.

(** C7 does not hold of the code as far as "eventually yields" goes.  With
    one worker, let the worker test the wait condition before the first
    submission ([about_to_wait]), let the caller run its ten calls of
    [submit] (each [notify_one] finds nobody waiting), and let the worker
    then call [wait].  The ten tasks are in the queue, each bound to the value
    [x] had at its submission, the worker is asleep, and no handle is ready;
    with the caller blocked in its first [get()] nothing can move any more
    short of a spurious wake-up, so no handle ever yields anything.  (That a
    handle which is ready holds [2 * x] is X17 below.) *)
Theorem C7_handles_never_ready_after_lost_wakeup :
  let s := after scenario1_lost (fresh_pool 1) in
  reachable 1 s ∧
  submissions scenario1_lost (fresh_pool 1)
    = (λ x, (times_two, [x])) <$> [1; 2; 3; 4; 5; 6; 7; 8; 9; 10]%Z ∧
  pc <$> _threads s = [Blocked] ∧ _mtx s = None ∧ sh s = NotCalled ∧
  _tasks s = seq 0 10 ∧ executed s = [] ∧
  (λ pt, (pt_bound pt, pt_state pt)) <$> heap s
    = (λ x, ([x], None)) <$> [1; 2; 3; 4; 5; 6; 7; 8; 9; 10]%Z ∧
  (λ h, future_get h s) <$> seq 0 10 = replicate 10 None ∧
  ThreadWorker_step 0 s = None ∧
  ∀ tr s', forallb caller_blocked tr = true → run tr s = Some s' →
    (λ h, future_get h s') <$> seq 0 10 = replicate 10 None ∧
    pc <$> _threads s' = [Blocked] ∧ _tasks s' = seq 0 10.
Proof.
  intros s.
  assert (pc <$> _threads s = [Blocked]) as Hth by (vm_compute; reflexivity).
  assert (submitting s = 0) as Hsub by (vm_compute; reflexivity).
  split_and!; try (vm_compute; reflexivity).
  - exists (fresh_pool 1), scenario1_lost. split; vm_compute; reflexivity.
  - intros tr s' Hq Hr.
    destruct (asleep_alone_run _ _ _ Hth Hsub Hq Hr) as [_ ->].
    split_and!; vm_compute; reflexivity.
Qed.

(** The first scenario, run: the ten handles, read in the order of the
    submissions, give 2, 4, ..., 20, although the tasks run when [x] is 11. *)
Lemma scenario1_reads :
  (λ h, future_get h (after scenario1 (fresh_pool 1))) <$> seq 0 10
  = (λ z, Some (Returned (VInt z))) <$> [2; 4; 6; 8; 10; 12; 14; 16; 18; 20]%Z
  ∧ vars (after scenario1 (fresh_pool 1)) = [11%Z].
Proof. split; vm_compute; reflexivity. Qed.

(** ** C9: a reference parameter designates the task's own copy *)

(** C9: a task submitted with arguments [args] and run by a worker: if its
    callable writes through its parameters only, the step that runs it leaves
    the memory of the rest of the program as it was, the variables passed as
    arguments included; what the callable wrote is in the task's own cells,
    which held the values the arguments had when [submit] was called. *)
Theorem C9_reference_parameter_writes_a_copy (n : Z) (s1 s3 s4 : ThreadPool)
    (f : callable) (args : list arg) (tr : list label) (i : nat)
    (w : ThreadWorker) :
  reachable n s1 →
  run (SubmitPush f args :: tr) s1 = Some s3 →
  _threads s3 !! i = Some w → pc w = Invoke →
  func w = Some (length (heap s1)) →
  writes_params_only f →
  ThreadWorker_step i s3 = Some s4 →
  vars s4 = vars s3 ∧
  (∀ a, Lvalue a ∈ args → vars s4 !! a = vars s3 !! a) ∧
  ∃ pt, heap s4 !! length (heap s1) = Some pt ∧
        pt_bound pt = (f (map (arg_value (vars s1)) args) (vars s3)).1.2 ∧
        pt_state pt = Some (f (map (arg_value (vars s1)) args) (vars s3)).1.1.
Proof.
  intros Hreach Hrun Hw Hpc Hf Hwr Hstep. simpl in Hrun.
  destruct (submit_push_task_of f args s1) as (pt0 & Hpt0 & Hok0).
  destruct (task_of_run _ _ _ _ _ _ _ Hpt0 Hok0 Hrun) as (pt3 & Hpt3 & Hfn3 & Hst3).
  assert (Inv s3) as HI3.
  { eapply Inv_run; [|exact Hrun]. apply Inv_push. by eapply Inv_reachable. }
  destruct (Inv_invoke_ready _ _ _ _ HI3 Hw Hpc Hf) as [s0 Hinv].
  unfold ThreadWorker_step in Hstep. rewrite Hw in Hstep. simpl in Hstep.
  rewrite Hpc, Hf, Hinv in Hstep. injection Hstep as <-.
  apply invoke_Some in Hinv as (pt & o & ps & vs & Hpt & Hst & Hfn & ->).
  assert (pt = pt3) as -> by congruence.
  rewrite Hst in Hst3. rewrite Hfn3, Hst3 in Hfn.
  pose proof (Hwr (map (arg_value (vars s1)) args) (vars s3)) as Hmem.
  rewrite Hfn in Hmem. simpl in Hmem. subst vs.
  split_and!; simpl; [done..|].
  eexists. rewrite list_lookup_insert_eq by eauto using lookup_lt_Some.
  split; [done|]. simpl. by rewrite Hfn.
Qed.

(** [TEST1::test] with [a1 = 150], [b1 = 120]: [addition_store] writes 270
    into the task's third cell, and the caller's [c1] keeps its value. *)
Lemma C9_reference_parameter_writes_a_copy_witness :
  let s3 := after (test_store 150 120 7) (fresh_pool 1) in
  let s4 := after [Worker 0] s3 in
  vars s4 = vars s3 ∧
  (∀ a, Lvalue a ∈ [Lvalue 0; Lvalue 1; Lvalue 2] →
        vars s4 !! a = vars s3 !! a) ∧
  ∃ pt, heap s4 !! 0 = Some pt ∧
        pt_bound pt = (addition_store [150; 120; 7]%Z (vars s3)).1.2 ∧
        pt_state pt = Some (addition_store [150; 120; 7]%Z (vars s3)).1.1.
Proof.
  intros s3 s4.
  apply (C9_reference_parameter_writes_a_copy 1
           (after [NewVar 150%Z; NewVar 120%Z; NewVar 7%Z] (fresh_pool 1))
           s3 s4 addition_store [Lvalue 0; Lvalue 1; Lvalue 2]
           (SubmitNotify 0 :: replicate 7 (Worker 0)) 0
           {| pc := Invoke; func := Some 0; gotten := true |}).
  - exists (fresh_pool 1), [NewVar 150%Z; NewVar 120%Z; NewVar 7%Z].
    split; vm_compute; reflexivity.
  - vm_compute; reflexivity.
  - vm_compute; reflexivity.
  - reflexivity.
  - reflexivity.
  - intros ps mem. unfold addition_store.
    by destruct ps as [|? [|? [|? [|? ?]]]].
  - vm_compute; reflexivity.
Defined.

(** [TEST1::test], run to the end of the task: [c1] is still 7, the sum is
    in the task's own cell, and the handle [f1] is ready. *)
Lemma test_store_result :
  let s := after (test_store 150 120 7 ++ [Worker 0]) (fresh_pool 1) in
  vars s = [150; 120; 7]%Z ∧
  pt_bound <$> heap s = [[150; 120; 270]%Z] ∧
  future_get 0 s = Some (Returned VVoid).
Proof. split_and!; vm_compute; reflexivity. Qed.

(** ** C10: a pool built with thread count 0 *)

(** C10: the constructor accepts a thread count of 0 and starts no worker;
    [submit] then still pushes the task and returns its handle; the three
    statements of [shutdown()] run one after the other without waiting for
    anybody, and leave the task in the queue, not run, its handle not ready;
    and whatever happens afterwards, the task stays at the head of the
    queue, nothing is ever run, and the handle is never ready. *)
Theorem C10_no_worker_no_result (f : callable) (args : list arg) :
  let s1 := after [SubmitPush f args; SubmitNotify 0] (fresh_pool 0) in
  let s2 := after [Shutdown; Shutdown; Shutdown] s1 in
  ThreadPool_ctor 0 = inr (fresh_pool 0) ∧ _threads (fresh_pool 0) = [] ∧
  submit f args 0 (fresh_pool 0) = Some (0, s1) ∧ _tasks s1 = [0] ∧
  run [Shutdown; Shutdown; Shutdown] s1 = Some s2 ∧
  sh s2 = Returned_ ∧ _tasks s2 = [0] ∧ executed s2 = [] ∧
  future_get 0 s2 = None ∧
  ∀ tr s3, run tr s2 = Some s3 →
    executed s3 = [] ∧ future_get 0 s3 = None ∧ ∃ q, _tasks s3 = 0 :: q.
Proof.
  intros s1 s2. split_and!; try (vm_compute; reflexivity).
  intros tr s3 Hr.
  assert (_threads s2 = []) as Ht by (vm_compute; reflexivity).
  destruct (no_worker_run _ _ _ Ht Hr) as (He & Hf & q & Hq).
  split_and!.
  - rewrite He. vm_compute; reflexivity.
  - rewrite Hf; [vm_compute; reflexivity|]. vm_compute. lia.
  - exists q. rewrite Hq. vm_compute; reflexivity.
Qed.

(** * Further properties of the queue and of the pool *)

(** ** SafeQueue.hpp on its own *)

(** X1: on a queue used by one client, starting empty, the elements popped
    so far followed by the elements still queued are the elements pushed, in
    the order of the pushes; so the size is the number of pushes minus the
    number of pops. *)
Theorem X1_queue_pops_in_push_order (ops : list (SageQueue.op nat))
    (q out : list nat) :
  SageQueue.run_ops ops [] [] = Some (q, out) →
  SageQueue.pushes ops = out ++ q ∧
  SageQueue.size q + length out = length (SageQueue.pushes ops) ∧
  (SageQueue.empty q = true ↔ length out = length (SageQueue.pushes ops)).
Proof.
  intros H. apply SageQueue_run_ops_fifo in H. simpl in H.
  rewrite H. unfold SageQueue.size. rewrite length_app.
  split_and!; [done|lia|]. destruct q; simpl; split; (done || lia).
Qed.

Lemma X1_queue_pops_in_push_order_witness :
  let ops := [SageQueue.OpPush 1; SageQueue.OpPush 2; SageQueue.OpPop;
              SageQueue.OpPush 3] in
  SageQueue.pushes ops = [1] ++ [2; 3] ∧
  SageQueue.size [2; 3] + length [1] = length (SageQueue.pushes ops) ∧
  (SageQueue.empty [2; 3] = true ↔ length [1] = length (SageQueue.pushes ops)).
Proof.
  intros ops. apply (X1_queue_pops_in_push_order ops [2; 3] [1]). reflexivity.
Defined.

Lemma run_ops_defined {T : Type} (ops : list (SageQueue.op T)) :
  ∀ q out,
    is_Some (SageQueue.run_ops ops q out)
    ↔ pops_allowed (SageQueue.size q) ops = true.
Proof.
  induction ops as [|[x|] ops IH]; simpl; intros q out.
  - split; eauto.
  - rewrite IH. unfold SageQueue.push, SageQueue.size.
    rewrite length_app. simpl. by rewrite Nat.add_1_r.
  - destruct q as [|y q]; simpl.
    + split; [by intros []|done].
    + apply IH.
Qed.

(** X2: [pop] and [top] are defined exactly on the queues that [empty]
    says are not empty and [size] says have an element; a sequence of pushes
    and pops is defined throughout exactly when none of its pops comes with
    the queue empty, that is when no prefix has more pops than the queue had
    elements plus the pushes before. *)
Theorem X2_queue_defined_iff_no_pop_on_empty (ops : list (SageQueue.op nat))
    (q out : list nat) :
  (is_Some (SageQueue.run_ops ops q out)
   ↔ pops_allowed (SageQueue.size q) ops = true) ∧
  (SageQueue.empty q = true ↔ SageQueue.size q = 0) ∧
  (SageQueue.pop q = None ↔ SageQueue.empty q = true) ∧
  (SageQueue.top q = None ↔ SageQueue.empty q = true).
Proof.
  split; [apply run_ops_defined|].
  destruct q; simpl; unfold SageQueue.size; simpl; split_and!; split; done.
Qed.

(** ** The mutex and the tasks in every run *)

(** X3: at any moment at most one worker is between its [lock] and the
    end of its loop body, and it is the owner of [_mtx]; in particular two
    workers never run tasks at the same time, and a worker asleep in [wait]
    or finished never owns the mutex. *)
Theorem X3_one_worker_in_the_lock_scope (n : Z) (s : ThreadPool) (i j : nat)
    (wi wj : ThreadWorker) :
  reachable n s →
  _threads s !! i = Some wi → _threads s !! j = Some wj →
  holds (pc wi) = true →
  _mtx s = Some i ∧
  (holds (pc wj) = true → i = j) ∧
  (pc wj = Invoke → i = j) ∧
  (pc wj = Blocked ∨ pc wj = Exited → _mtx s ≠ Some j).
Proof.
  intros Hreach Hi Hj Hh. pose proof (Inv_reachable _ _ Hreach) as HI.
  pose proof (inv_mutex _ HI _ _ Hi) as Hmi.
  pose proof (inv_mutex _ HI _ _ Hj) as Hmj.
  assert (_mtx s = Some i) as Hm by by apply Hmi.
  split_and!; [done| | |].
  - intros Hhj. apply Hmj in Hhj. congruence.
  - intros Hpc. rewrite Hpc in Hmj. simpl in Hmj.
    assert (_mtx s = Some j) by by apply Hmj. congruence.
  - intros [Hpc|Hpc] Hc; rewrite Hpc in Hmj; simpl in Hmj;
      by apply Hmj in Hc.
Qed.

Lemma X3_one_worker_in_the_lock_scope_witness :
  let s := after ([SubmitPush times_two [Rvalue 1%Z]; SubmitNotify 0;
                   SubmitPush times_two [Rvalue 2%Z]; SubmitNotify 0]
                  ++ replicate 7 (Worker 0) ++ [Worker 1])
                 (fresh_pool 2) in
  let wi := {| pc := Invoke; func := Some 0; gotten := true |} in
  let wj := {| pc := Lock; func := None; gotten := false |} in
  _mtx s = Some 0 ∧
  (holds (pc wj) = true → 0 = 1) ∧
  (pc wj = Invoke → 0 = 1) ∧
  (pc wj = Blocked ∨ pc wj = Exited → _mtx s ≠ Some 1).
Proof.
  intros s wi wj. apply (X3_one_worker_in_the_lock_scope 2 s 0 1 wi wj).
  - exists (fresh_pool 2),
      ([SubmitPush times_two [Rvalue 1%Z]; SubmitNotify 0;
        SubmitPush times_two [Rvalue 2%Z]; SubmitNotify 0]
       ++ replicate 7 (Worker 0) ++ [Worker 1]).
    split; vm_compute; reflexivity.
  - vm_compute; reflexivity.
  - vm_compute; reflexivity.
  - reflexivity.
Defined.

Lemma inflight_short s : length (inflight s) ≤ 1.
Proof.
  unfold inflight. destruct (_mtx s) as [i|]; simpl; [|lia].
  destruct (_threads s !! i) as [w|]; simpl; [|lia].
  unfold holding. destruct (pc w); simpl; try lia.
  - destruct (gotten w); simpl; [|lia]. destruct (func w); simpl; lia.
  - destruct (func w); simpl; lia.
Qed.

(** X4: no task is lost or duplicated while the pool runs: the tasks
    pushed so far are, in push order, the tasks run to completion, then the
    task being run if there is one (at most one), then the queue.  So the
    tasks complete one at a time in the order of their submission. *)
Theorem X4_tasks_complete_in_submission_order (n : Z) (s : ThreadPool) :
  reachable n s →
  pushed s = executed s ++ inflight s ++ _tasks s ∧
  length (inflight s) ≤ 1 ∧
  executed s = seq 0 (length (executed s)) ∧
  SageQueue.size (_tasks s) + length (taken s) = length (heap s).
Proof.
  intros Hreach. pose proof (Inv_reachable _ _ Hreach) as HI.
  pose proof (inv_fifo _ HI) as Hq. pose proof (inv_run _ HI) as Hr.
  assert (pushed s = executed s ++ inflight s ++ _tasks s) as Hall.
  { by rewrite Hq, Hr, <- app_assoc. }
  split_and!; [done|apply inflight_short| |].
  - unfold pushed in Hall. by eapply seq_app_prefix.
  - unfold pushed in Hq. apply (f_equal length) in Hq.
    rewrite length_seq, length_app in Hq. unfold SageQueue.size. lia.
Qed.

Lemma X4_tasks_complete_in_submission_order_witness :
  let s := after ([SubmitPush times_two [Rvalue 1%Z]; SubmitNotify 0;
                   SubmitPush times_two [Rvalue 2%Z]; SubmitNotify 0;
                   SubmitPush times_two [Rvalue 3%Z]; SubmitNotify 0]
                  ++ worker_round 0 ++ replicate 7 (Worker 0))
                 (fresh_pool 1) in
  pushed s = executed s ++ inflight s ++ _tasks s ∧
  length (inflight s) ≤ 1 ∧
  executed s = seq 0 (length (executed s)) ∧
  SageQueue.size (_tasks s) + length (taken s) = length (heap s).
Proof.
  intros s. apply (X4_tasks_complete_in_submission_order 1 s).
  exists (fresh_pool 1),
    ([SubmitPush times_two [Rvalue 1%Z]; SubmitNotify 0;
      SubmitPush times_two [Rvalue 2%Z]; SubmitNotify 0;
      SubmitPush times_two [Rvalue 3%Z]; SubmitNotify 0]
     ++ worker_round 0 ++ replicate 7 (Worker 0)).
  split; vm_compute; reflexivity.
Defined.

(** X5: a handle is ready exactly when its task has been run to
    completion, and once ready it keeps its value for the rest of the
    run: the shared state is written once. *)
Theorem X5_handle_ready_iff_run_and_stable (n : Z) (s s' : ThreadPool)
    (tr : list label) (h : nat) :
  reachable n s → run tr s = Some s' →
  (is_Some (future_get h s) ↔ h ∈ executed s) ∧
  (∀ o, future_get h s = Some o → future_get h s' = Some o) ∧
  (h ∈ executed s → h ∈ executed s').
Proof.
  intros Hreach Hrun. pose proof (Inv_reachable _ _ Hreach) as HI.
  assert (∀ s0, Inv s0 → is_Some (future_get h s0) ↔ h ∈ executed s0) as Hiff.
  { intros s0 HI0. unfold future_get.
    destruct (heap s0 !! h) as [pt|] eqn:Hh; simpl.
    - by apply (inv_state _ HI0).
    - split; [by intros []|]. intros Hin. exfalso.
      apply lookup_ge_None in Hh.
      assert (h < length (heap s0)); [|lia].
      pose proof (inv_fifo _ HI0) as Hq. unfold pushed in Hq.
      eapply seq_app_lt; [exact Hq|]. rewrite (inv_run _ HI0).
      apply elem_of_app. by left. }
  split_and!.
  - by apply Hiff.
  - intros o Ho. by eapply future_stable_run.
  - intros Hin. apply Hiff in Hin as [o Ho]; [|done].
    apply Hiff; [by eapply Inv_run|].
    exists o. by eapply future_stable_run.
Qed.

Lemma X5_handle_ready_iff_run_and_stable_witness :
  let s := after ([SubmitPush times_two [Rvalue 21%Z]; SubmitNotify 0]
                  ++ worker_round 0) (fresh_pool 1) in
  let s' := after [Shutdown; Shutdown; Worker 0; Worker 0] s in
  (is_Some (future_get 0 s) ↔ 0 ∈ executed s) ∧
  (∀ o, future_get 0 s = Some o → future_get 0 s' = Some o) ∧
  (0 ∈ executed s → 0 ∈ executed s').
Proof.
  intros s s'.
  apply (X5_handle_ready_iff_run_and_stable 1 s s'
           [Shutdown; Shutdown; Worker 0; Worker 0] 0).
  - exists (fresh_pool 1),
      ([SubmitPush times_two [Rvalue 21%Z]; SubmitNotify 0] ++ worker_round 0).
    split; vm_compute; reflexivity.
  - vm_compute; reflexivity.
Defined.

(** ** Threads, the flag and the caller's memory along a run *)

Lemma shutdown_flag_step l s s' :
  step l s = Some s' → _shutdown s = true → _shutdown s' = true.
Proof.
  destruct l as [i|i|f args|k| |v|a v]; simpl.
  - intros H. by worker_cases H.
  - unfold spurious. destruct (_threads s !! i); simpl; [|done].
    destruct (is_blocked _); [|done]. by intros [= <-].
  - by intros [= <-].
  - unfold submit_notify, notify_one. destruct (submitting s); [done|]. simpl.
    destruct (existsb _ _); [|by intros [= <-]].
    destruct (_threads s !! k); simpl; [|done].
    destruct (is_blocked _); [|done]. by intros [= <-].
  - unfold shutdown_step. destruct (sh s) as [| |k|]; try done.
    + by intros [= <-].
    + by intros [= <-].
    + destruct (_threads s !! k); [case_bool_decide|]; try done;
        by intros [= <-].
  - by intros [= <-].
  - case_bool_decide; [|done]. by intros [= <-].
Qed.

Lemma exited_step l s s' i w :
  step l s = Some s' → _threads s !! i = Some w → pc w = Exited →
  _threads s' !! i = Some w.
Proof.
  intros Hs Hi Hx.
  assert (wake w = w) as Hwk.
  { unfold wake, is_blocked. rewrite Hx. by case_bool_decide. }
  assert (is_blocked w = false) as Hnb.
  { unfold is_blocked. rewrite Hx. by case_bool_decide. }
  destruct l as [j|j|f args|k| |v|a v]; simpl in Hs.
  - rename w into wi. worker_cases Hs; simpl.
    all: destruct (decide (j = i)) as [->|?]; [congruence|].
    all: by rewrite list_lookup_insert_ne.
  - unfold spurious in Hs.
    destruct (_threads s !! j) as [wj|] eqn:Hj; simpl in Hs; [|done].
    destruct (is_blocked wj) eqn:Hb; [|done]. injection Hs as <-. simpl.
    destruct (decide (j = i)) as [->|?]; [congruence|].
    by rewrite list_lookup_insert_ne.
  - by injection Hs as <-.
  - unfold submit_notify, notify_one in Hs.
    destruct (submitting s); [done|]. simpl in Hs.
    destruct (existsb _ _); [|by injection Hs as <-].
    destruct (_threads s !! k) as [wk|] eqn:Hk; simpl in Hs; [|done].
    destruct (is_blocked wk) eqn:Hb; [|done]. injection Hs as <-. simpl.
    destruct (decide (k = i)) as [->|?]; [congruence|].
    by rewrite list_lookup_insert_ne.
  - unfold shutdown_step in Hs. destruct (sh s) as [| |k|]; try done.
    + by injection Hs as <-.
    + injection Hs as <-. simpl. rewrite list_lookup_fmap, Hi. simpl.
      by rewrite Hwk.
    + destruct (_threads s !! k); [case_bool_decide|]; try done;
        by injection Hs as <-.
  - by injection Hs as <-.
  - case_bool_decide; [|done]. by injection Hs as <-.
Qed.

Lemma exited_run tr : ∀ s s' i w,
  run tr s = Some s' → _threads s !! i = Some w → pc w = Exited →
  _shutdown s = true →
  _threads s' !! i = Some w ∧ _shutdown s' = true.
Proof.
  induction tr as [|l tr IH]; simpl; intros s s' i w.
  - by intros [= <-].
  - destruct (step l s) as [s1|] eqn:Hs; simpl; [|done].
    intros Hr Hi Hx Hf. eapply IH; [done| |done|].
    + by eapply exited_step.
    + by eapply shutdown_flag_step.
Qed.

(** X6: a worker leaves its loop only after [shutdown()] has been called
    and has set the flag; the flag is never cleared, and a worker that has
    left its loop does nothing more for the rest of the run. *)
Theorem X6_workers_exit_only_after_shutdown (n : Z) (s s' : ThreadPool)
    (tr : list label) (i : nat) (w : ThreadWorker) :
  reachable n s → run tr s = Some s' →
  _threads s !! i = Some w → pc w = Exited →
  sh s ≠ NotCalled ∧ _shutdown s = true ∧
  _shutdown s' = true ∧ _threads s' !! i = Some w ∧
  ThreadWorker_step i s' = None.
Proof.
  intros Hreach Hrun Hi Hx. pose proof (Inv_reachable _ _ Hreach) as HI.
  pose proof (inv_local _ HI _ _ Hi) as Hl. unfold local_ok in Hl.
  rewrite Hx in Hl.
  pose proof (inv_sh _ HI) as Hs. unfold sh_ok in Hs.
  destruct (exited_run _ _ _ _ _ Hrun Hi Hx Hl) as [Hi' Hf'].
  split_and!; try done.
  - intros Hc. rewrite Hc in Hs. congruence.
  - unfold ThreadWorker_step. rewrite Hi'. simpl. by rewrite Hx.
Qed.

Lemma X6_workers_exit_only_after_shutdown_witness :
  let s := after [Shutdown; Worker 0; Worker 0] (fresh_pool 2) in
  let s' := after [Shutdown; Worker 1; Worker 1; Shutdown] s in
  let w := {| pc := Exited; func := None; gotten := false |} in
  sh s ≠ NotCalled ∧ _shutdown s = true ∧
  _shutdown s' = true ∧ _threads s' !! 0 = Some w ∧
  ThreadWorker_step 0 s' = None.
Proof.
  intros s s' w.
  apply (X6_workers_exit_only_after_shutdown 2 s s'
           [Shutdown; Worker 1; Worker 1; Shutdown] 0 w).
  - exists (fresh_pool 2), [Shutdown; Worker 0; Worker 0].
    split; vm_compute; reflexivity.
  - vm_compute; reflexivity.
  - vm_compute; reflexivity.
  - reflexivity.
Defined.

Lemma ctor_cases (n : Z) :
  int_range n →
  ((n < 0)%Z ∧ ThreadPool_ctor n = inl length_error) ∨
  ((0 ≤ n)%Z ∧ ThreadPool_ctor n = inr (fresh_pool (Z.to_nat n))).
Proof.
  unfold int_range. intros Hn.
  assert (vector_max_size = 1152921504606846975%Z) as Hmax by reflexivity.
  unfold ThreadPool_ctor, int_to_size_t. rewrite Hmax.
  destruct (Z.lt_ge_cases n 0) as [Hneg|Hpos]; [left|right]; split; try done.
  - assert ((n mod 2 ^ 64)%Z = (n + 2 ^ 64)%Z) as ->.
    { symmetry. apply (Z.mod_unique n (2 ^ 64) (-1) (n + 2 ^ 64)); lia. }
    case_match eqn:E; [done|]. apply Z.ltb_ge in E. lia.
  - rewrite Z.mod_small by lia.
    case_match eqn:E; [apply Z.ltb_lt in E; lia|done].
Qed.

(** X7: the number of worker threads is the count given to the
    constructor, for the whole life of the pool. *)
Theorem X7_thread_count_is_fixed (n : Z) (s : ThreadPool) :
  int_range n → reachable n s →
  (0 ≤ n)%Z ∧ length (_threads s) = Z.to_nat n.
Proof.
  intros Hn (s0 & tr & Hc & Hr).
  destruct (ctor_cases n Hn) as [[Hneg He]|[Hpos He]];
    rewrite He in Hc; [done|].
  injection Hc as <-. split; [done|].
  rewrite (threads_length_run _ _ _ Hr). simpl. by rewrite length_replicate.
Qed.

Lemma X7_thread_count_is_fixed_witness :
  let s := after [Shutdown; Worker 0; Worker 0] (fresh_pool 5) in
  (0 ≤ 5)%Z ∧ length (_threads s) = Z.to_nat 5.
Proof.
  intros s. apply (X7_thread_count_is_fixed 5 s).
  - unfold int_range. lia.
  - exists (fresh_pool 5), [Shutdown; Worker 0; Worker 0].
    split; vm_compute; reflexivity.
Defined.

(** ** Submitting to a pool whose workers have finished *)

Lemma halted_step l s s' :
  halted s → step l s = Some s' →
  halted s' ∧ executed s' = executed s ∧
  (∀ t, t < length (heap s) → future_get t s' = future_get t s) ∧
  ∃ q, _tasks s' = _tasks s ++ q.
Proof.
  intros Hh.
  assert (∀ w, w ∈ _threads s → wake w = w) as Hwk.
  { intros w [i Hi]%list_elem_of_lookup. unfold wake, is_blocked.
    rewrite (Hh _ _ Hi). by case_bool_decide. }
  assert (∀ s1, _threads s1 = _threads s → executed s1 = executed s →
                heap s1 = heap s → _tasks s1 = _tasks s →
            halted s1 ∧ executed s1 = executed s ∧
            (∀ t, t < length (heap s) → future_get t s1 = future_get t s) ∧
            ∃ q, _tasks s1 = _tasks s ++ q) as Hsame.
  { intros s1 H1 H2 H3 H4. split_and!; [|done| |].
    - unfold halted. by rewrite H1.
    - intros t _. unfold future_get. by rewrite H3.
    - exists []. by rewrite app_nil_r. }
  destruct l as [i|i|f args|k| |v|a v]; simpl.
  - unfold ThreadWorker_step.
    destruct (_threads s !! i) as [w|] eqn:Hi; simpl; [|done].
    by rewrite (Hh _ _ Hi).
  - unfold spurious. destruct (_threads s !! i) as [w|] eqn:Hi; simpl; [|done].
    unfold is_blocked. rewrite (Hh _ _ Hi). by case_bool_decide.
  - intros [= <-]. simpl. split_and!; try done.
    + intros t Hlt. unfold future_get. simpl. by rewrite lookup_app_l.
    + eauto.
  - unfold submit_notify, notify_one. destruct (submitting s); [done|]. simpl.
    destruct (existsb _ _); [|intros [= <-]; by apply Hsame].
    destruct (_threads s !! k) as [w|] eqn:Hk; simpl; [|done].
    unfold is_blocked. rewrite (Hh _ _ Hk). by case_bool_decide.
  - unfold shutdown_step. destruct (sh s) as [| |k|]; try done.
    + intros [= <-]. by apply Hsame.
    + intros [= <-]. apply Hsame; try done. simpl.
      apply list_eq. intros i. rewrite list_lookup_fmap.
      destruct (_threads s !! i) as [w|] eqn:Hi; simpl; [|done].
      f_equal. apply Hwk. by eapply list_elem_of_lookup_2.
    + destruct (_threads s !! k); [case_bool_decide|]; try done;
        intros [= <-]; by apply Hsame.
  - intros [= <-]. by apply Hsame.
  - case_bool_decide; [|done]. intros [= <-]. by apply Hsame.
Qed.

Lemma halted_run tr : ∀ s s',
  halted s → run tr s = Some s' →
  halted s' ∧ executed s' = executed s ∧
  (∀ t, t < length (heap s) → future_get t s' = future_get t s) ∧
  ∃ q, _tasks s' = _tasks s ++ q.
Proof.
  induction tr as [|l tr IH]; simpl; intros s s' Hh.
  - intros [= <-]. split_and!; try done. exists []. by rewrite app_nil_r.
  - destruct (step l s) as [s1|] eqn:Hs; simpl; [|done]. intros Hr.
    destruct (halted_step _ _ _ Hh Hs) as (Hh1 & He1 & Hf1 & q1 & Hq1).
    destruct (IH _ _ Hh1 Hr) as (Hh' & He & Hf & q & Hq).
    split_and!; [done|congruence| |].
    + intros t Hlt. rewrite Hf, Hf1; [done..|].
      pose proof (heap_length_step _ _ _ Hs). destruct l; lia.
    + exists (q1 ++ q). by rewrite Hq, Hq1, app_assoc.
Qed.

Lemma returned_step l s s' :
  step l s = Some s' → sh s = Returned_ → sh s' = Returned_.
Proof.
  destruct l as [i|i|g a|k| |v|a v]; simpl.
  - intros H. by worker_cases H.
  - unfold spurious. destruct (_threads s !! i); simpl; [|done].
    destruct (is_blocked _); [|done]. by intros [= <-].
  - by intros [= <-].
  - unfold submit_notify, notify_one. destruct (submitting s); [done|]. simpl.
    destruct (existsb _ _); [|by intros [= <-]].
    destruct (_threads s !! k); simpl; [|done].
    destruct (is_blocked _); [|done]. by intros [= <-].
  - unfold shutdown_step. intros H Hsh. by rewrite Hsh in H.
  - by intros [= <-].
  - case_bool_decide; [|done]. by intros [= <-].
Qed.

Lemma returned_run tr : ∀ s s',
  run tr s = Some s' → sh s = Returned_ → sh s' = Returned_.
Proof.
  induction tr as [|l tr IH]; simpl; intros s s'.
  - by intros [= <-].
  - destruct (step l s) as [s1|] eqn:Hs; simpl; [|done].
    intros Hr Hsh. eapply IH; [done|]. by eapply returned_step.
Qed.

(** X12: [submit] does not look at the state of the pool.  Once
    [shutdown()] has returned, a call of [submit] still pushes its task and
    returns a handle, but the task is never run: it stays in the queue, and
    its handle is never ready, whatever happens afterwards. *)
Theorem X12_submit_after_shutdown_is_never_run (n : Z) (s s' : ThreadPool)
    (f : callable) (args : list arg) (tr : list label) :
  reachable n s → sh s = Returned_ →
  run (SubmitPush f args :: tr) s = Some s' →
  fst (submit_push f args s) = length (heap s) ∧
  future_get (length (heap s)) s' = None ∧
  length (heap s) ∈ _tasks s' ∧
  executed s' = executed s ∧
  shutdown_step s' = None.
Proof.
  intros Hreach Hsh Hrun. pose proof (Inv_reachable _ _ Hreach) as HI.
  pose proof (inv_sh _ HI) as Hs. unfold sh_ok in Hs. rewrite Hsh in Hs.
  destruct Hs as [_ Hh]. simpl in Hrun.
  assert (halted (snd (submit_push f args s))) as Hh1 by exact Hh.
  destruct (halted_run _ _ _ Hh1 Hrun) as (_ & He & Hf & q & Hq).
  assert (sh s' = Returned_) as Hsh' by (by eapply returned_run).
  split_and!.
  - done.
  - rewrite Hf.
    + unfold future_get. simpl. rewrite lookup_app_r by done.
      by rewrite Nat.sub_diag.
    + simpl. rewrite length_app. simpl. lia.
  - rewrite Hq. simpl. unfold SageQueue.push.
    rewrite !elem_of_app, list_elem_of_singleton. by left; right.
  - by rewrite He.
  - unfold shutdown_step. by rewrite Hsh'.
Qed.

Lemma X12_submit_after_shutdown_is_never_run_witness :
  let s := after [Shutdown; Shutdown; Worker 0; Worker 0; Shutdown; Shutdown]
                 (fresh_pool 1) in
  let s' := after [SubmitPush times_two [Rvalue 21%Z]; SubmitNotify 0] s in
  fst (submit_push times_two [Rvalue 21%Z] s) = length (heap s) ∧
  future_get (length (heap s)) s' = None ∧
  length (heap s) ∈ _tasks s' ∧
  executed s' = executed s ∧
  shutdown_step s' = None.
Proof.
  intros s s'.
  apply (X12_submit_after_shutdown_is_never_run 1 s s' times_two
           [Rvalue 21%Z] [SubmitNotify 0]).
  - exists (fresh_pool 1),
      [Shutdown; Shutdown; Worker 0; Worker 0; Shutdown; Shutdown].
    split; vm_compute; reflexivity.
  - vm_compute; reflexivity.
  - vm_compute; reflexivity.
Defined.

(** ** The caller's memory *)

Lemma vars_step l s s' :
  (∀ t pt, heap s !! t = Some pt → writes_params_only (pt_fn pt)) →
  submits_params_only l → step l s = Some s' →
  vars s' = caller_vars [l] (vars s) ∧
  (∀ t pt, heap s' !! t = Some pt → writes_params_only (pt_fn pt)).
Proof.
  intros Hheap Hl.
  destruct l as [i|i|f args|k| |v|a v]; simpl in *.
  - intros H. worker_cases H; simpl; try done.
    pose proof (Hheap _ _ Hpt (pt_bound pt) (vars s)) as Hmem.
    rewrite Hfn in Hmem. simpl in Hmem. split; [done|].
    intros t pt'. destruct (decide (n = t)) as [->|?].
    + rewrite list_lookup_insert_eq by eauto using lookup_lt_Some.
      intros [= <-]. simpl. eauto.
    + rewrite list_lookup_insert_ne by done. eauto.
  - unfold spurious. destruct (_threads s !! i); simpl; [|done].
    destruct (is_blocked _); [|done]. by intros [= <-].
  - intros [= <-]. simpl. split; [done|]. intros t pt Ht.
    apply lookup_app_Some in Ht as [Ht|[_ Ht]]; [eauto|].
    by apply list_lookup_singleton_Some in Ht as [_ <-].
  - unfold submit_notify, notify_one. destruct (submitting s); [done|]. simpl.
    destruct (existsb _ _); [|by intros [= <-]].
    destruct (_threads s !! k); simpl; [|done].
    destruct (is_blocked _); [|done]. by intros [= <-].
  - unfold shutdown_step. destruct (sh s) as [| |k|]; try done.
    + by intros [= <-].
    + by intros [= <-].
    + destruct (_threads s !! k); [case_bool_decide|]; try done;
        by intros [= <-].
  - by intros [= <-].
  - case_bool_decide; [|done]. by intros [= <-].
Qed.

Lemma vars_run tr : ∀ s s',
  (∀ t pt, heap s !! t = Some pt → writes_params_only (pt_fn pt)) →
  Forall submits_params_only tr → run tr s = Some s' →
  vars s' = caller_vars tr (vars s).
Proof.
  induction tr as [|l tr IH]; simpl; intros s s' Hheap Hall.
  - by intros [= <-].
  - apply Forall_cons in Hall as [Hl Hall].
    destruct (step l s) as [s1|] eqn:Hs; simpl; [|done]. intros Hr.
    destruct (vars_step _ _ _ Hheap Hl Hs) as [Hv Hheap1].
    rewrite (IH _ _ Hheap1 Hall Hr), Hv. by destruct l.
Qed.

(** X13: the pool itself never writes the caller's memory.  In a run in
    which every submitted callable writes through its parameters only, the
    caller's variables are at every moment what the caller's own definitions
    and assignments made them, however the workers, the submissions and the
    shutdown are interleaved. *)
Theorem X13_only_the_caller_writes_its_variables (n : Z) (s0 s : ThreadPool)
    (tr : list label) :
  ThreadPool_ctor n = inr s0 → run tr s0 = Some s →
  Forall submits_params_only tr →
  vars s = caller_vars tr [].
Proof.
  intros Hc Hr Hall.
  assert (heap s0 = [] ∧ vars s0 = []) as [Hh0 Hv0].
  { unfold ThreadPool_ctor in Hc. case_match; [done|]. by injection Hc as <-. }
  rewrite <- Hv0. apply vars_run; [|done..].
  intros t pt. by rewrite Hh0, lookup_nil.
Qed.

Lemma addition_store_params_only : writes_params_only addition_store.
Proof.
  intros ps mem. unfold addition_store.
  by destruct ps as [|? [|? [|? [|? ?]]]].
Qed.

Lemma addition_return_params_only : writes_params_only addition_return.
Proof.
  intros ps mem. unfold addition_return. by destruct ps as [|? [|? [|? ?]]].
Qed.

(** [TEST1::test]: after the task of [addition_store] has run, the caller's
    variables are the three it defined, [c1] included. *)
Lemma X13_only_the_caller_writes_its_variables_witness :
  vars (after (test_store 150 120 7 ++ [Worker 0; Worker 0]) (fresh_pool 1))
  = caller_vars (test_store 150 120 7 ++ [Worker 0; Worker 0]) [].
Proof.
  apply (X13_only_the_caller_writes_its_variables 1 (fresh_pool 1)
           (after (test_store 150 120 7 ++ [Worker 0; Worker 0]) (fresh_pool 1))
           (test_store 150 120 7 ++ [Worker 0; Worker 0])).
  - vm_compute; reflexivity.
  - vm_compute; reflexivity.
  - repeat (apply Forall_cons; split;
            [first [exact I | exact addition_store_params_only]|]).
    apply Forall_nil_2.
Defined.

(** ** test.hpp: what the handles of the tests give *)

(** X14: in any run, the handle of a call
    [submit(addition_return, a, b)], once ready, gives [a + b] for the values
    [a] and [b] had at the call, and the handle of a call
    [submit(addition_store, a, b, c)], once ready, gives nothing (it is a
    [std::future<void>]): the sum is not in it. *)
Theorem X14_test_handles (n : Z) (s0 s : ThreadPool) (tr : list label)
    (h : nat) (f : callable) (vs : list Z) (o : outcome) :
  ThreadPool_ctor n = inr s0 → run tr s0 = Some s →
  submissions tr s0 !! h = Some (f, vs) →
  future_get h s = Some o →
  (∀ a b, f = addition_return → vs = [a; b] →
          o = Returned (VInt (a + b))) ∧
  (∀ a b c, f = addition_store → vs = [a; b; c] → o = Returned VVoid).
Proof.
  intros Hc Hr Hsub Hget.
  assert (heap s0 = []) as Hh0.
  { unfold ThreadPool_ctor in Hc. case_match; [done|]. by injection Hc as <-. }
  destruct (submissions_task_of _ _ _ _ _ _ Hr Hsub) as (pt & Hpt & Hf & Hst).
  rewrite Hh0 in Hpt. simpl in Hpt.
  unfold future_get in Hget. rewrite Hpt in Hget. simpl in Hget.
  rewrite Hget in Hst. destruct Hst as [mem ->].
  split; [by intros a b -> ->|by intros a b c -> ->].
Qed.

Lemma X14_test_handles_witness :
  (∀ a b, addition_return = addition_return → [150; 120]%Z = [a; b] →
          Returned (VInt 270) = Returned (VInt (a + b))) ∧
  (∀ a b c, addition_return = addition_store → [150; 120]%Z = [a; b; c] →
            Returned (VInt 270) = Returned VVoid).
Proof.
  apply (X14_test_handles 1 (fresh_pool 1)
           (after (test_return 150 120) (fresh_pool 1))
           (test_return 150 120) 0 addition_return [150; 120]%Z
           (Returned (VInt 270))).
  - vm_compute; reflexivity.
  - vm_compute; reflexivity.
  - vm_compute; reflexivity.
  - vm_compute; reflexivity.
Defined.

(** ** One worker running alone *)

Lemma run_app tr1 tr2 s : run (tr1 ++ tr2) s = run tr1 s ≫= run tr2.
Proof.
  revert s. induction tr1 as [|l tr1 IH]; simpl; intros s; [done|].
  destruct (step l s) as [s1|]; simpl; [apply IH|done].
Qed.

Lemma run_app_Some tr1 tr2 s s1 :
  run tr1 s = Some s1 → run (tr1 ++ tr2) s = run tr2 s1.
Proof. intros H. by rewrite run_app, H. Qed.

Lemma run_cons_step l tr s s1 :
  step l s = Some s1 → run (l :: tr) s = run tr s1.
Proof. intros H. simpl. by rewrite H. Qed.

Lemma run_cons_worker i tr s s1 :
  ThreadWorker_step i s = Some s1 → run (Worker i :: tr) s = run tr s1.
Proof. intros H. simpl. by rewrite H. Qed.

(** One statement of worker [i], run symbolically. *)
Ltac wrun Hw Hi tac :=
  erewrite run_cons_worker;
  [|unfold ThreadWorker_step; simpl; rewrite ?list_insert_insert_eq;
    first [rewrite Hw | rewrite list_lookup_insert_eq by exact Hi]; simpl;
    tac; reflexivity].

Lemma head_task_ready s t q :
  Inv s → _mtx s = None → _tasks s = t :: q →
  ∃ pt, heap s !! t = Some pt ∧ pt_state pt = None.
Proof.
  intros HI Hm Hq. pose proof (inv_fifo _ HI) as Hf. unfold pushed in Hf.
  rewrite Hq in Hf.
  assert (t < length (heap s)) as Hlt.
  { assert (t ∈ seq 0 (length (heap s))) as Hin.
    { rewrite Hf, elem_of_app, elem_of_cons. right. by left. }
    apply list_elem_of_In, in_seq in Hin. lia. }
  destruct (lookup_lt_is_Some_2 _ _ Hlt) as [pt Hpt].
  exists pt. split; [done|].
  destruct (pt_state pt) eqn:E; [|done]. exfalso.
  assert (t ∈ executed s) as Hex.
  { apply (inv_state _ HI _ _ Hpt). rewrite E. eauto. }
  pose proof (inv_run _ HI) as Hr. rewrite inflight_free, app_nil_r in Hr by done.
  rewrite <- Hr in Hex.
  assert (NoDup (taken s ++ t :: q)) as Hnd.
  { rewrite <- Hf. apply NoDup_ListNoDup, seq_NoDup. }
  apply NoDup_app in Hnd as (_ & Hnd & _). apply (Hnd t Hex). by left.
Qed.

Lemma round_runs_head s i w t q :
  Inv s → _threads s !! i = Some w → pc w = WhileShutdown →
  _mtx s = None → _shutdown s = false → _tasks s = t :: q →
  ∃ pt o ps mem s',
    heap s !! t = Some pt ∧ pt_state pt = None ∧
    pt_fn pt (pt_bound pt) (vars s) = (o, ps, mem) ∧
    run (worker_round i) s = Some s' ∧
    _tasks s' = q ∧ taken s' = taken s ++ [t] ∧
    executed s' = executed s ++ [t] ∧
    _mtx s' = None ∧ _shutdown s' = false ∧ sh s' = sh s ∧
    submitting s' = submitting s ∧ vars s' = mem ∧
    _threads s' = <[i := {| pc := WhileShutdown; func := Some t;
                            gotten := true |}]> (_threads s) ∧
    heap s' = <[t := {| pt_fn := pt_fn pt; pt_bound := ps;
                        pt_state := Some o |}]> (heap s).
Proof.
  intros HI Hw Hpc Hm Hf Hq.
  destruct (head_task_ready _ _ _ HI Hm Hq) as (pt & Hpt & Hst).
  destruct (pt_fn pt (pt_bound pt) (vars s)) as [[o ps] mem] eqn:Hfn.
  exists pt, o, ps, mem.
  assert (i < length (_threads s)) as Hi by eauto using lookup_lt_Some.
  eexists. do 3 (split; [done|]). split.
  - unfold worker_round. cbn [replicate].
    wrun Hw Hi ltac:(rewrite Hpc, Hf).
    wrun Hw Hi ltac:(rewrite Hm).
    wrun Hw Hi ltac:(rewrite Hq; simpl).
    wrun Hw Hi ltac:(rewrite Hq; simpl).
    wrun Hw Hi ltac:(rewrite Hq; simpl).
    wrun Hw Hi ltac:(rewrite Hq; simpl).
    wrun Hw Hi idtac.
    wrun Hw Hi ltac:(unfold invoke; simpl; rewrite Hpt; simpl;
                     rewrite Hst, Hfn; simpl).
    wrun Hw Hi idtac.
    reflexivity.
  - simpl. rewrite ?list_insert_insert_eq. by split_and!.
Qed.

(** X8: one iteration of the worker loop.  A worker at the test of its
    loop, with the mutex free, no shutdown requested and a non-empty queue,
    left to run its nine statements, removes the head of the queue and no
    other task, runs it on its bound arguments, stores the outcome in its
    handle, releases the mutex and is back at the test of its loop. *)
Theorem X8_one_iteration_runs_the_head (n : Z) (s : ThreadPool) (i : nat)
    (w : ThreadWorker) (t : nat) (q : list nat) :
  reachable n s →
  _threads s !! i = Some w → pc w = WhileShutdown →
  _mtx s = None → _shutdown s = false → _tasks s = t :: q →
  ∃ pt s',
    heap s !! t = Some pt ∧
    run (worker_round i) s = Some s' ∧
    _tasks s' = q ∧ executed s' = executed s ++ [t] ∧
    future_get t s = None ∧
    future_get t s' = Some (pt_fn pt (pt_bound pt) (vars s)).1.1 ∧
    vars s' = (pt_fn pt (pt_bound pt) (vars s)).2 ∧
    _mtx s' = None ∧ pc <$> _threads s' !! i = Some WhileShutdown ∧
    (∀ j, j ≠ i → _threads s' !! j = _threads s !! j).
Proof.
  intros Hreach Hw Hpc Hm Hf Hq. pose proof (Inv_reachable _ _ Hreach) as HI.
  destruct (round_runs_head _ _ _ _ _ HI Hw Hpc Hm Hf Hq)
    as (pt & o & ps & mem & s' & Hpt & Hst & Hfn & Hrun & Hq' & _ & He & Hm'
        & _ & _ & _ & Hv & Ht & Hh).
  exists pt, s'. rewrite Hfn. simpl.
  split_and!; try done.
  - unfold future_get. by rewrite Hpt.
  - unfold future_get. rewrite Hh.
    rewrite list_lookup_insert_eq by eauto using lookup_lt_Some. done.
  - rewrite Ht. rewrite list_lookup_insert_eq by eauto using lookup_lt_Some.
    done.
  - intros j Hne. rewrite Ht. by rewrite list_lookup_insert_ne.
Qed.

Lemma X8_one_iteration_runs_the_head_witness :
  let s := after [SubmitPush times_two [Rvalue 1%Z]; SubmitNotify 0;
                  SubmitPush times_two [Rvalue 2%Z]; SubmitNotify 0]
                 (fresh_pool 2) in
  ∃ pt s',
    heap s !! 0 = Some pt ∧
    run (worker_round 1) s = Some s' ∧
    _tasks s' = [1] ∧ executed s' = executed s ++ [0] ∧
    future_get 0 s = None ∧
    future_get 0 s' = Some (pt_fn pt (pt_bound pt) (vars s)).1.1 ∧
    vars s' = (pt_fn pt (pt_bound pt) (vars s)).2 ∧
    _mtx s' = None ∧ pc <$> _threads s' !! 1 = Some WhileShutdown ∧
    (∀ j, j ≠ 1 → _threads s' !! j = _threads s !! j).
Proof.
  intros s.
  apply (X8_one_iteration_runs_the_head 2 s 1 new_worker 0 [1]).
  - exists (fresh_pool 2),
      [SubmitPush times_two [Rvalue 1%Z]; SubmitNotify 0;
       SubmitPush times_two [Rvalue 2%Z]; SubmitNotify 0].
    split; vm_compute; reflexivity.
  - vm_compute; reflexivity.
  - reflexivity.
  - vm_compute; reflexivity.
  - vm_compute; reflexivity.
  - vm_compute; reflexivity.
Defined.

Lemma drain_runs_queue (i : nat) : ∀ q s w,
  Inv s → _threads s !! i = Some w → pc w = WhileShutdown →
  _mtx s = None → _shutdown s = false → _tasks s = q →
  ∃ s' w',
    run (drain i (length q)) s = Some s' ∧
    _tasks s' = [] ∧ executed s' = executed s ++ q ∧
    taken s' = taken s ++ q ∧
    _mtx s' = None ∧ _shutdown s' = false ∧ sh s' = sh s ∧
    submitting s' = submitting s ∧
    length (heap s') = length (heap s) ∧
    _threads s' = <[i := w']> (_threads s) ∧ pc w' = WhileShutdown ∧
    (∀ t, t ∈ q → is_Some (future_get t s')).
Proof.
  induction q as [|t q IH]; intros s w HI Hw Hpc Hm Hf Hq.
  - exists s, w. simpl. rewrite !app_nil_r.
    split_and!; try done.
    + by rewrite list_insert_id.
    + intros t Ht. by apply not_elem_of_nil in Ht.
  - destruct (round_runs_head _ _ _ _ _ HI Hw Hpc Hm Hf Hq)
      as (pt & o & ps & mem & s1 & Hpt & Hst & Hfn & Hrun & Hq1 & Htk1 & He1
          & Hm1 & Hf1 & Hsh1 & Hsub1 & Hv1 & Ht1 & Hh1).
    assert (i < length (_threads s)) as Hi by eauto using lookup_lt_Some.
    assert (Inv s1) as HI1 by (by eapply Inv_run).
    destruct (IH s1 {| pc := WhileShutdown; func := Some t; gotten := true |})
      as (s' & w' & Hrun' & Hq' & He' & Htk' & Hm' & Hf' & Hsh' & Hsub' & Hlen'
          & Ht' & Hpc' & Hfut'); try done.
    { rewrite Ht1. by rewrite list_lookup_insert_eq. }
    exists s', w'. split_and!; try done.
    + change (drain i (length (t :: q)))
        with (worker_round i ++ drain i (length q)).
      rewrite run_app, Hrun. done.
    + by rewrite He', He1, <- app_assoc.
    + by rewrite Htk', Htk1, <- app_assoc.
    + congruence.
    + congruence.
    + rewrite Hlen', Hh1. by rewrite length_insert.
    + rewrite Ht', Ht1. by rewrite list_insert_insert_eq.
    + intros t' [->|Hin]%elem_of_cons; [|by apply Hfut'].
      exists o. eapply future_stable_run; [|exact Hrun'].
      unfold future_get. rewrite Hh1.
      rewrite list_lookup_insert_eq by eauto using lookup_lt_Some. done.
Qed.

(** X9: a worker left to run as many iterations of its loop as there are
    tasks in the queue (mutex free, no shutdown requested) empties the
    queue: it runs the queued tasks in queue order, one per iteration, every
    one of their handles is ready at the end, and the worker is back at the
    test of its loop with the mutex released. *)
Theorem X9_iterations_drain_the_queue (n : Z) (s : ThreadPool) (i : nat)
    (w : ThreadWorker) :
  reachable n s →
  _threads s !! i = Some w → pc w = WhileShutdown →
  _mtx s = None → _shutdown s = false →
  ∃ s',
    run (drain i (SageQueue.size (_tasks s))) s = Some s' ∧
    SageQueue.empty (_tasks s') = true ∧
    executed s' = executed s ++ _tasks s ∧
    (∀ t, t ∈ _tasks s → is_Some (future_get t s')) ∧
    _mtx s' = None ∧ pc <$> _threads s' !! i = Some WhileShutdown.
Proof.
  intros Hreach Hw Hpc Hm Hf. pose proof (Inv_reachable _ _ Hreach) as HI.
  destruct (drain_runs_queue i (_tasks s) s w HI Hw Hpc Hm Hf eq_refl)
    as (s' & w' & Hrun & Hq & He & _ & Hm' & _ & _ & _ & _ & Ht & Hpc' & Hfut).
  exists s'. unfold SageQueue.size. rewrite Hq. split_and!; try done.
  rewrite Ht. rewrite list_lookup_insert_eq by eauto using lookup_lt_Some.
  simpl. by rewrite Hpc'.
Qed.

Lemma X9_iterations_drain_the_queue_witness :
  let s := after [SubmitPush times_two [Rvalue 1%Z]; SubmitNotify 0;
                  SubmitPush times_two [Rvalue 2%Z]; SubmitNotify 0;
                  SubmitPush times_two [Rvalue 3%Z]; SubmitNotify 0]
                 (fresh_pool 2) in
  ∃ s',
    run (drain 1 (SageQueue.size (_tasks s))) s = Some s' ∧
    SageQueue.empty (_tasks s') = true ∧
    executed s' = executed s ++ _tasks s ∧
    (∀ t, t ∈ _tasks s → is_Some (future_get t s')) ∧
    _mtx s' = None ∧ pc <$> _threads s' !! 1 = Some WhileShutdown.
Proof.
  intros s. apply (X9_iterations_drain_the_queue 2 s 1 new_worker).
  - exists (fresh_pool 2),
      [SubmitPush times_two [Rvalue 1%Z]; SubmitNotify 0;
       SubmitPush times_two [Rvalue 2%Z]; SubmitNotify 0;
       SubmitPush times_two [Rvalue 3%Z]; SubmitNotify 0].
    split; vm_compute; reflexivity.
  - vm_compute; reflexivity.
  - reflexivity.
  - vm_compute; reflexivity.
  - vm_compute; reflexivity.
Defined.

(** ** A sleeping worker and a submission *)

Lemma blocked_exists (l : list ThreadWorker) i w :
  l !! i = Some w → is_blocked w = true → existsb is_blocked l = true.
Proof.
  intros Hi Hb. apply existsb_exists. exists w. split; [|done].
  apply list_elem_of_In. by eapply list_elem_of_lookup_2.
Qed.

(** X11: the path from idle to running.  With worker [i] asleep in [wait],
    the mutex free and the queue empty, a call of [submit] that notifies
    this worker, followed by the worker's seven statements from the wake-up
    to the end of its loop body, runs the submitted task: the handle is ready
    with the outcome of the callable on the argument values of the call, the
    queue is empty again, the mutex is released and the worker is back at the
    test of its loop. *)
Theorem X11_submit_wakes_a_sleeping_worker (s : ThreadPool) (i : nat)
    (w : ThreadWorker) (f : callable) (args : list arg) :
  _threads s !! i = Some w → pc w = Blocked →
  _mtx s = None → _tasks s = [] →
  ∃ s',
    run (submit_and_wake f args i) s = Some s' ∧
    future_get (length (heap s)) s'
      = Some (f (map (arg_value (vars s)) args) (vars s)).1.1 ∧
    vars s' = (f (map (arg_value (vars s)) args) (vars s)).2 ∧
    executed s' = executed s ++ [length (heap s)] ∧
    _tasks s' = [] ∧ _mtx s' = None ∧
    pc <$> _threads s' !! i = Some WhileShutdown ∧
    (∀ j, j ≠ i → _threads s' !! j = _threads s !! j).
Proof.
  intros Hw Hpc Hm Hq.
  assert (i < length (_threads s)) as Hi by eauto using lookup_lt_Some.
  assert (is_blocked w = true) as Hb.
  { unfold is_blocked. rewrite Hpc. by case_bool_decide. }
  destruct (f (map (arg_value (vars s)) args) (vars s)) as [[o ps] mem] eqn:Hfn.
  eexists. split.
  - unfold submit_and_wake. cbn [app replicate].
    erewrite (run_cons_step (SubmitPush f args)); [|reflexivity].
    erewrite (run_cons_step (SubmitNotify i));
      [|simpl; unfold submit_notify, notify_one; simpl;
        rewrite (blocked_exists _ _ _ Hw Hb), Hw; simpl; rewrite Hb;
        unfold wake; rewrite Hb; reflexivity].
    wrun Hw Hi ltac:(rewrite Hm).
    wrun Hw Hi ltac:(rewrite ?Hq; simpl).
    wrun Hw Hi ltac:(rewrite ?Hq; simpl).
    wrun Hw Hi ltac:(rewrite ?Hq; simpl).
    wrun Hw Hi idtac.
    wrun Hw Hi ltac:(unfold invoke; simpl;
                     rewrite lookup_app_r by done; rewrite Nat.sub_diag; simpl;
                     rewrite Hfn; simpl).
    wrun Hw Hi idtac.
    reflexivity.
  - simpl. rewrite ?list_insert_insert_eq. unfold future_get. simpl.
    rewrite list_lookup_insert_eq by (rewrite length_app; simpl; lia).
    rewrite list_lookup_insert_eq by done. simpl.
    split_and!; try done.
    intros j Hne. by rewrite list_lookup_insert_ne.
Qed.

Lemma X11_submit_wakes_a_sleeping_worker_witness :
  let s := after (about_to_wait ++ [Worker 0]) (fresh_pool 1) in
  ∃ s',
    run (submit_and_wake times_two [Rvalue 21%Z] 0) s = Some s' ∧
    future_get (length (heap s)) s'
      = Some (times_two (map (arg_value (vars s)) [Rvalue 21%Z]) (vars s)).1.1 ∧
    vars s' = (times_two (map (arg_value (vars s)) [Rvalue 21%Z]) (vars s)).2 ∧
    executed s' = executed s ++ [length (heap s)] ∧
    _tasks s' = [] ∧ _mtx s' = None ∧
    pc <$> _threads s' !! 0 = Some WhileShutdown ∧
    (∀ j, j ≠ 0 → _threads s' !! j = _threads s !! j).
Proof.
  intros s.
  apply (X11_submit_wakes_a_sleeping_worker s 0
           {| pc := Blocked; func := None; gotten := false |}
           times_two [Rvalue 21%Z]).
  - vm_compute; reflexivity.
  - reflexivity.
  - vm_compute; reflexivity.
  - vm_compute; reflexivity.
Defined.

(** ** A sequential use of the pool, from construction to shutdown *)

Lemma submit_all_run jobs : ∀ s,
  existsb is_blocked (_threads s) = false → submitting s = 0 →
  ∃ s',
    run (submit_all jobs) s = Some s' ∧
    _threads s' = _threads s ∧ _mtx s' = _mtx s ∧
    _shutdown s' = _shutdown s ∧ sh s' = sh s ∧
    _tasks s' = _tasks s ++ seq (length (heap s)) (length jobs) ∧
    length (heap s') = length (heap s) + length jobs ∧
    executed s' = executed s ∧ taken s' = taken s ∧ submitting s' = 0.
Proof.
  induction jobs as [|[f args] jobs IH]; intros s Hb Hsub.
  - exists s. simpl. rewrite app_nil_r, Nat.add_0_r. by split_and!.
  - set (s1 := with_submitting 0 (snd (submit_push f args s))).
    destruct (IH s1) as (s' & Hrun & Ht & Hm & Hf & Hsh & Hq & Hh & He & Htk
                         & Hsub'); [done..|].
    exists s'. split_and!; try done.
    + change (submit_all ((f, args) :: jobs))
        with ([SubmitPush f args; SubmitNotify 0] ++ submit_all jobs).
      rewrite run_app. cbn [app].
      erewrite (run_cons_step (SubmitPush f args)); [|reflexivity].
      erewrite (run_cons_step (SubmitNotify 0));
        [|simpl; unfold submit_notify, notify_one; simpl; rewrite Hsub, Hb;
          reflexivity].
      exact Hrun.
    + rewrite Hq. simpl. unfold SageQueue.push. rewrite <- app_assoc.
      do 2 f_equal. rewrite length_app. simpl. by rewrite Nat.add_1_r.
    + rewrite Hh. simpl. rewrite length_app. simpl. lia.
Qed.

Lemma exit_from : ∀ k a s,
  _shutdown s = true → _tasks s = [] → a + k = length (_threads s) →
  (∀ i w, _threads s !! i = Some w → a ≤ i → pc w = WhileShutdown) →
  ∃ s',
    run (flat_map (λ i, [Worker i; Worker i]) (seq a k)) s = Some s' ∧
    _shutdown s' = true ∧ _tasks s' = [] ∧ sh s' = sh s ∧
    heap s' = heap s ∧ executed s' = executed s ∧
    length (_threads s') = length (_threads s) ∧
    ∀ i w', _threads s' !! i = Some w' →
      (i < a → _threads s !! i = Some w') ∧ (a ≤ i → pc w' = Exited).
Proof.
  induction k as [|k IH]; intros a s Hf Hq Hlen Hall.
  - exists s. simpl. split_and!; try done.
    intros i w' Hi. split; [done|]. intros Hge.
    apply lookup_lt_Some in Hi. lia.
  - destruct (lookup_lt_is_Some_2 (_threads s) a) as [w Hw]; [lia|].
    assert (a < length (_threads s)) as Ha by lia.
    pose proof (Hall _ _ Hw (le_n a)) as Hpc.
    set (s2 := goto a Exited (at_pc WhileEmpty w) (goto a WhileEmpty w s)).
    destruct (IH (S a) s2) as (s' & Hrun & Hf' & Hq' & Hsh' & Hh' & He' & Hlen'
                               & Hall'); try done.
    { simpl. rewrite !length_insert. lia. }
    { intros i wi. simpl. rewrite list_insert_insert_eq.
      intros Hi Hge. rewrite list_lookup_insert_ne in Hi by lia.
      apply (Hall _ _ Hi). lia. }
    exists s'. split_and!; try done.
    + cbn [seq flat_map app].
      wrun Hw Ha ltac:(rewrite Hpc, Hf).
      wrun Hw Ha ltac:(rewrite Hq; simpl).
      exact Hrun.
    + rewrite Hlen'. simpl. by rewrite !length_insert.
    + intros i w' Hi. destruct (Hall' _ _ Hi) as [Hlt Hge].
      split.
      * intros Hia. specialize (Hlt ltac:(lia)). simpl in Hlt.
        rewrite list_insert_insert_eq in Hlt.
        by rewrite list_lookup_insert_ne in Hlt by lia.
      * intros Hai. destruct (decide (i = a)) as [->|Hne]; [|apply Hge; lia].
        specialize (Hlt ltac:(lia)). simpl in Hlt.
        rewrite list_insert_insert_eq in Hlt.
        rewrite list_lookup_insert_eq in Hlt by done.
        by injection Hlt as <-.
Qed.

Lemma joins_run : ∀ k a s,
  halted s → sh s = Join a → a + k = length (_threads s) →
  run (replicate (S k) Shutdown) s = Some (with_sh Returned_ s).
Proof.
  induction k as [|k IH]; intros a s Hh Hsh Hlen.
  - cbn [replicate]. erewrite (run_cons_step Shutdown); [reflexivity|].
    assert (_threads s !! a = None) as Hn by (apply lookup_ge_None; lia).
    simpl. unfold shutdown_step. by rewrite Hsh, Hn.
  - destruct (lookup_lt_is_Some_2 (_threads s) a) as [w Hw]; [lia|].
    change (replicate (S (S k)) Shutdown)
      with (Shutdown :: replicate (S k) Shutdown).
    erewrite (run_cons_step Shutdown).
    + apply (IH (S a) (with_sh (Join (S a)) s)); [done|done|simpl; lia].
    + simpl. unfold shutdown_step. rewrite Hsh, Hw.
      rewrite (Hh _ _ Hw). by case_bool_decide.
Qed.

Lemma no_worker_blocked (l : list ThreadWorker) :
  (∀ i w, l !! i = Some w → pc w = WhileShutdown) →
  existsb is_blocked l = false ∧ wake <$> l = l.
Proof.
  intros Hall. split.
  - apply not_true_is_false. intros (w & Hin & Hb)%existsb_exists.
    apply list_elem_of_In, list_elem_of_lookup in Hin as [i Hi].
    unfold is_blocked in Hb. rewrite (Hall _ _ Hi) in Hb.
    by case_bool_decide.
  - apply list_eq. intros i. rewrite list_lookup_fmap.
    destruct (l !! i) as [w|] eqn:Hi; simpl; [|done].
    unfold wake, is_blocked. rewrite (Hall _ _ Hi). by case_bool_decide.
Qed.

(** X10: the pool used by one caller, whatever the number of workers (at
    least one) and whatever the jobs.  If the jobs are submitted one after the
    other, the first worker then runs one iteration of its loop per job,
    [shutdown()] is called and every worker runs its loop test, then
    [shutdown()] returns: every worker has finished, the queue is empty, the
    jobs have been run once each in the order of their submission, and every
    handle is ready. *)
Theorem X10_sequential_use_completes (m : nat)
    (jobs : list (callable * list arg)) :
  ∃ s,
    run (submit_all jobs ++ drain 0 (length jobs) ++ shutdown_all (S m))
        (fresh_pool (S m)) = Some s ∧
    sh s = Returned_ ∧ halted s ∧ _tasks s = [] ∧
    executed s = seq 0 (length jobs) ∧
    (∀ h, h < length jobs → is_Some (future_get h s)).
Proof.
  assert (∀ i w, _threads (fresh_pool (S m)) !! i = Some w →
                 pc w = WhileShutdown) as Hall0.
  { intros i w Hi. apply lookup_replicate in Hi as [-> _]. done. }
  destruct (no_worker_blocked _ Hall0) as [Hb0 _].
  destruct (submit_all_run jobs (fresh_pool (S m)) Hb0 eq_refl)
    as (s1 & Hrun1 & Ht1 & Hm1 & Hf1 & Hsh1 & Hq1 & Hh1 & He1 & Htk1 & Hsub1).
  simpl in Hq1, Hh1, Hm1, Hf1, Hsh1, He1, Htk1.
  assert (Inv s1) as HI1.
  { eapply Inv_run; [|exact Hrun1]. split; try done.
    - intros i w Hi. apply lookup_replicate in Hi as [-> _]. by simpl.
    - intros i w Hi. apply lookup_replicate in Hi as [-> _].
      by unfold local_ok. }
  assert (_threads s1 !! 0 = Some new_worker) as Hw0.
  { rewrite Ht1. simpl. done. }
  destruct (drain_runs_queue 0 (_tasks s1) s1 new_worker HI1 Hw0 eq_refl
              Hm1 Hf1 eq_refl)
    as (s2 & w2 & Hrun2 & Hq2 & He2 & _ & Hm2 & Hf2 & Hsh2 & _ & Hlen2 & Ht2
        & Hpc2 & Hfut2).
  rewrite Hq1, length_seq in Hrun2.
  assert (∀ i w, _threads s2 !! i = Some w → pc w = WhileShutdown) as Hall2.
  { intros i w. rewrite Ht2, Ht1.
    destruct (decide (i = 0)) as [->|?].
    - rewrite list_lookup_insert_eq by (simpl; lia). by intros [= <-].
    - rewrite list_lookup_insert_ne by done. apply Hall0. }
  destruct (no_worker_blocked _ Hall2) as [_ Hwk2].
  set (s3 := with_sh (Join 0) (notify_all (with_sh NotifyAll
                                             (with_shutdown true s2)))).
  assert (length (_threads s3) = S m) as Hlen3.
  { simpl. rewrite Hwk2, Ht2, length_insert, Ht1. simpl.
    by rewrite length_replicate. }
  assert (∀ i w, _threads s3 !! i = Some w → 0 ≤ i → pc w = WhileShutdown)
    as Hall3.
  { intros i w. simpl. rewrite Hwk2. intros Hi _. by apply (Hall2 i). }
  destruct (exit_from (S m) 0 s3 eq_refl Hq2 (eq_sym Hlen3) Hall3)
    as (s4 & Hrun4 & Hf4 & Hq4 & Hsh4 & Hh4 & He4 & Hlen4 & Hall4).
  assert (halted s4) as Hh.
  { intros i w Hi. apply (Hall4 _ _ Hi). lia. }
  exists (with_sh Returned_ s4). split_and!; try done.
  - rewrite (run_app_Some _ _ _ _ Hrun1), (run_app_Some _ _ _ _ Hrun2).
    unfold shutdown_all. cbn [app].
    erewrite (run_cons_step Shutdown);
      [|simpl; unfold shutdown_step; rewrite Hsh2, Hsh1; reflexivity].
    erewrite (run_cons_step Shutdown); [|reflexivity].
    unfold exit_all. fold s3. rewrite (run_app_Some _ _ _ _ Hrun4).
    apply (joins_run (S m) 0); [done|by rewrite Hsh4|].
    rewrite Hlen4, Hlen3. done.
  - simpl. rewrite He4. simpl. rewrite He2, He1, Hq1. done.
  - intros h Hlt. unfold future_get. simpl. rewrite Hh4. simpl.
    apply Hfut2. rewrite Hq1. apply list_elem_of_In, in_seq. simpl. lia.
Qed.

(** ** An idle pool: going to sleep, waking up, shutting down *)

Lemma same_tasks_state_trans s1 s2 s3 :
  same_tasks_state s1 s2 → same_tasks_state s2 s3 → same_tasks_state s1 s3.
Proof.
  unfold same_tasks_state. intros (?&?&?&?&?&?&?&?&?) (?&?&?&?&?&?&?&?&?).
  split_and!; congruence.
Qed.

(** Every worker in turn runs [c] statements that take it from [p0] to
    [p1], given that one worker does. *)
Lemma each_worker_run (c : nat) (p0 p1 : wpc) (C : ThreadPool → Prop) :
  (∀ a s w, C s → _threads s !! a = Some w → pc w = p0 →
     ∃ s2 w2, run (replicate c (Worker a)) s = Some s2 ∧
              _threads s2 = <[a := w2]> (_threads s) ∧ pc w2 = p1 ∧
              same_tasks_state s s2) →
  (∀ s s', C s → same_tasks_state s s' → C s') →
  ∀ k a s,
    C s → a + k = length (_threads s) →
    (∀ i w, _threads s !! i = Some w → a ≤ i → pc w = p0) →
    ∃ s',
      run (flat_map (λ i, replicate c (Worker i)) (seq a k)) s = Some s' ∧
      same_tasks_state s s' ∧
      length (_threads s') = length (_threads s) ∧
      ∀ i w', _threads s' !! i = Some w' →
        (i < a → _threads s !! i = Some w') ∧ (a ≤ i → pc w' = p1).
Proof.
  intros Hone HC. induction k as [|k IH]; intros a s Hc Hlen Hall.
  - exists s. simpl. split_and!; try done.
    intros i w' Hi. split; [done|]. intros Hge.
    apply lookup_lt_Some in Hi. lia.
  - destruct (lookup_lt_is_Some_2 (_threads s) a) as [w Hw]; [lia|].
    assert (a < length (_threads s)) as Ha by lia.
    destruct (Hone a s w Hc Hw (Hall _ _ Hw (le_n a)))
      as (s2 & w2 & Hrun2 & Ht2 & Hpc2 & Hsame2).
    destruct (IH (S a) s2) as (s' & Hrun & Hsame & Hlen' & Hall').
    { by eapply HC. }
    { rewrite Ht2, length_insert. lia. }
    { intros i wi. rewrite Ht2. intros Hi Hge.
      rewrite list_lookup_insert_ne in Hi by lia. apply (Hall _ _ Hi). lia. }
    exists s'. split_and!.
    + cbn [seq flat_map]. by rewrite (run_app_Some _ _ _ _ Hrun2).
    + by eapply same_tasks_state_trans.
    + rewrite Hlen', Ht2. by rewrite length_insert.
    + intros i w' Hi. destruct (Hall' _ _ Hi) as [Hlt Hge]. split.
      * intros Hia. specialize (Hlt ltac:(lia)). rewrite Ht2 in Hlt.
        by rewrite list_lookup_insert_ne in Hlt by lia.
      * intros Hai. destruct (decide (i = a)) as [->|Hne]; [|apply Hge; lia].
        specialize (Hlt ltac:(lia)). rewrite Ht2 in Hlt.
        rewrite list_lookup_insert_eq in Hlt by done. by injection Hlt as <-.
Qed.

(** A worker with nothing to do goes to sleep in [wait]. *)
Lemma worker_goes_to_sleep a s w :
  _mtx s = None ∧ _tasks s = [] ∧ _shutdown s = false →
  _threads s !! a = Some w → pc w = WhileShutdown →
  ∃ s2 w2, run (replicate 5 (Worker a)) s = Some s2 ∧
           _threads s2 = <[a := w2]> (_threads s) ∧ pc w2 = Blocked ∧
           same_tasks_state s s2.
Proof.
  intros (Hm & Hq & Hf) Hw Hpc.
  assert (a < length (_threads s)) as Ha by eauto using lookup_lt_Some.
  eexists _, (at_pc Blocked w). split_and!.
  - cbn [replicate].
    wrun Hw Ha ltac:(rewrite Hpc, Hf).
    wrun Hw Ha ltac:(rewrite Hm).
    wrun Hw Ha ltac:(rewrite Hq; simpl).
    wrun Hw Ha ltac:(rewrite Hf).
    wrun Hw Ha idtac.
    reflexivity.
  - simpl. by rewrite ?list_insert_insert_eq.
  - done.
  - unfold same_tasks_state. simpl. by rewrite Hm.
Qed.

(** A worker woken after [shutdown()] has set the flag, the queue being
    empty, leaves its loop. *)
Lemma woken_worker_exits a s w :
  _mtx s = None ∧ _tasks s = [] ∧ _shutdown s = true →
  _threads s !! a = Some w → pc w = Relock →
  ∃ s2 w2, run (replicate 6 (Worker a)) s = Some s2 ∧
           _threads s2 = <[a := w2]> (_threads s) ∧ pc w2 = Exited ∧
           same_tasks_state s s2.
Proof.
  intros (Hm & Hq & Hf) Hw Hpc.
  assert (a < length (_threads s)) as Ha by eauto using lookup_lt_Some.
  eexists _, (at_pc Exited (with_gotten false w)). split_and!.
  - cbn [replicate].
    wrun Hw Ha ltac:(rewrite Hpc, Hm).
    wrun Hw Ha ltac:(rewrite Hq; simpl).
    wrun Hw Ha idtac.
    wrun Hw Ha idtac.
    wrun Hw Ha ltac:(rewrite Hf).
    wrun Hw Ha ltac:(rewrite Hq; simpl).
    reflexivity.
  - simpl. by rewrite ?list_insert_insert_eq.
  - done.
  - unfold same_tasks_state. simpl. by rewrite Hm.
Qed.

Lemma idle_condition_kept (b : bool) s s' :
  _mtx s = None ∧ _tasks s = [] ∧ _shutdown s = b →
  same_tasks_state s s' →
  _mtx s' = None ∧ _tasks s' = [] ∧ _shutdown s' = b.
Proof.
  unfold same_tasks_state. intros (?&?&?) (?&?&?&?&?&?&?&?&?).
  split_and!; congruence.
Qed.

(** X15: an idle pool is shut down cleanly, whatever the number of
    workers.  From construction, every worker goes to sleep in [wait] (the
    queue is empty); [shutdown()] then sets the flag and notifies all; every
    worker returns from [wait], finds the queue empty, takes no task, and
    leaves its loop at the next test; [shutdown()] joins them all and
    returns.  Nothing was run. *)
Theorem X15_idle_pool_shuts_down (n : nat) :
  ∃ s1 s,
    run (sleep_all n) (fresh_pool n) = Some s1 ∧
    (∀ i w, _threads s1 !! i = Some w → pc w = Blocked) ∧
    _mtx s1 = None ∧
    run (shutdown_idle n) s1 = Some s ∧
    sh s = Returned_ ∧ halted s ∧ length (_threads s) = n ∧
    executed s = [] ∧ _tasks s = [] ∧ _mtx s = None.
Proof.
  destruct (each_worker_run 5 WhileShutdown Blocked
              (λ s, _mtx s = None ∧ _tasks s = [] ∧ _shutdown s = false)
              worker_goes_to_sleep (idle_condition_kept false)
              n 0 (fresh_pool n))
    as (s1 & Hrun1 & Hsame1 & Hlen1 & Hall1).
  { done. }
  { simpl. by rewrite length_replicate. }
  { intros i w Hi _. apply lookup_replicate in Hi as [-> _]. done. }
  destruct Hsame1 as (Hq1 & Hh1 & Hv1 & Htk1 & He1 & Hsh1 & Hf1 & Hm1 & Hsub1).
  simpl in Hq1, He1, Hsh1, Hf1, Hm1, Hlen1. rewrite length_replicate in Hlen1.
  assert (∀ i w, _threads s1 !! i = Some w → pc w = Blocked) as Hb1.
  { intros i w Hi. apply (Hall1 _ _ Hi). lia. }
  set (s2 := with_sh (Join 0) (notify_all (with_sh NotifyAll
                                             (with_shutdown true s1)))).
  destruct (each_worker_run 6 Relock Exited
              (λ s, _mtx s = None ∧ _tasks s = [] ∧ _shutdown s = true)
              woken_worker_exits (idle_condition_kept true)
              n 0 s2)
    as (s3 & Hrun3 & Hsame3 & Hlen3 & Hall3).
  { done. }
  { simpl. by rewrite length_fmap. }
  { intros i w. simpl. rewrite list_lookup_fmap.
    destruct (_threads s1 !! i) as [w1|] eqn:Hi; simpl; [|done].
    intros [= <-] _. unfold wake, is_blocked. rewrite (Hb1 _ _ Hi).
    by case_bool_decide. }
  destruct Hsame3 as (Hq3 & Hh3 & Hv3 & Htk3 & He3 & Hsh3 & Hf3 & Hm3 & Hsub3).
  simpl in Hq3, He3, Hsh3, Hf3, Hm3, Hlen3. rewrite length_fmap in Hlen3.
  assert (halted s3) as Hh.
  { intros i w Hi. apply (Hall3 _ _ Hi). lia. }
  exists s1, (with_sh Returned_ s3). split_and!; try done.
  - unfold shutdown_idle. cbn [app].
    erewrite (run_cons_step Shutdown);
      [|simpl; unfold shutdown_step; rewrite Hsh1; reflexivity].
    erewrite (run_cons_step Shutdown); [|reflexivity].
    fold s2. unfold each_worker. rewrite (run_app_Some _ _ _ _ Hrun3).
    apply (joins_run n 0); [done|by rewrite Hsh3|]. simpl. lia.
  - simpl. congruence.
  - simpl. congruence.
  - simpl. congruence.
  - simpl. congruence.
Qed.

(** X16: a wake-up with nothing to do changes nothing.  A worker asleep in
    [wait] whose wait returns although nobody notified it, with the queue
    empty and no shutdown requested, takes the mutex, finds the queue empty,
    takes no task, releases the mutex, and goes back to sleep: the queue, the
    tasks, the handles and the caller's memory are as before. *)
Theorem X16_wake_up_without_work_is_harmless (s : ThreadPool) (i : nat)
    (w : ThreadWorker) :
  _threads s !! i = Some w → pc w = Blocked →
  _mtx s = None → _tasks s = [] → _shutdown s = false →
  ∃ s',
    run (Spurious i :: replicate 9 (Worker i)) s = Some s' ∧
    same_tasks_state s s' ∧
    _threads s' = <[i := {| pc := Blocked; func := func w;
                            gotten := false |}]> (_threads s).
Proof.
  intros Hw Hpc Hm Hq Hf.
  assert (i < length (_threads s)) as Hi by eauto using lookup_lt_Some.
  assert (is_blocked w = true) as Hb.
  { unfold is_blocked. rewrite Hpc. by case_bool_decide. }
  eexists. split_and!.
  - cbn [replicate].
    erewrite (run_cons_step (Spurious i));
      [|simpl; unfold spurious; rewrite Hw; simpl; rewrite Hb;
        unfold wake; rewrite Hb; reflexivity].
    wrun Hw Hi ltac:(rewrite Hm).
    wrun Hw Hi ltac:(rewrite Hq; simpl).
    wrun Hw Hi idtac.
    wrun Hw Hi idtac.
    wrun Hw Hi ltac:(rewrite Hf).
    wrun Hw Hi idtac.
    wrun Hw Hi ltac:(rewrite Hq; simpl).
    wrun Hw Hi ltac:(rewrite Hf).
    wrun Hw Hi idtac.
    reflexivity.
  - unfold same_tasks_state. simpl. by rewrite Hm.
  - simpl. by rewrite ?list_insert_insert_eq.
Qed.

Lemma X16_wake_up_without_work_is_harmless_witness :
  let s := after (about_to_wait ++ [Worker 0]) (fresh_pool 1) in
  ∃ s',
    run (Spurious 0 :: replicate 9 (Worker 0)) s = Some s' ∧
    same_tasks_state s s' ∧
    _threads s' = <[0 := {| pc := Blocked; func := None;
                            gotten := false |}]> (_threads s).
Proof.
  intros s.
  apply (X16_wake_up_without_work_is_harmless s 0
           {| pc := Blocked; func := None; gotten := false |}).
  - vm_compute; reflexivity.
  - reflexivity.
  - vm_compute; reflexivity.
  - vm_compute; reflexivity.
  - vm_compute; reflexivity.
Defined.

(** ** The value of a ready handle *)

(** X17: in any run of a pool from its construction, when the handle of the
    [h]-th submission is ready it holds the outcome of the submitted callable
    on the values its arguments had when [submit] was called, whatever the
    caller did to its variables since; for [f(x) = x * 2] this is [2 * x]. *)
Theorem X17_ready_handle_holds_the_result_at_submission (n : Z) (s0 s : ThreadPool)
    (tr : list label) (h : nat) (f : callable) (vs : list Z) (o : outcome) :
  ThreadPool_ctor n = inr s0 → run tr s0 = Some s →
  submissions tr s0 !! h = Some (f, vs) →
  future_get h s = Some o →
  (∃ mem, o = (f vs mem).1.1) ∧
  (∀ x, f = times_two → vs = [x] → o = Returned (VInt (x * 2))).
Proof.
  intros Hc Hr Hsub Hget.
  assert (heap s0 = []) as Hh0.
  { unfold ThreadPool_ctor in Hc. case_match; [done|]. by injection Hc as <-. }
  destruct (submissions_task_of _ _ _ _ _ _ Hr Hsub) as (pt & Hpt & Hf & Hst).
  rewrite Hh0 in Hpt. simpl in Hpt.
  unfold future_get in Hget. rewrite Hpt in Hget. simpl in Hget.
  rewrite Hget in Hst. destruct Hst as [mem ->].
  split; [by exists mem|]. by intros x -> ->.
Qed.

(** The first scenario, with one worker: the handle of the last submission
    ([x = 10], read when [x] is 11) holds 20. *)
Lemma X17_ready_handle_holds_the_result_at_submission_witness :
  (∃ mem, Returned (VInt 20) = (times_two [10%Z] mem).1.1) ∧
  (∀ x, times_two = times_two → [10%Z] = [x] →
        Returned (VInt 20) = Returned (VInt (x * 2))).
Proof.
  apply (X17_ready_handle_holds_the_result_at_submission 1 (fresh_pool 1)
           (after scenario1 (fresh_pool 1)) scenario1 9 times_two [10%Z]
           (Returned (VInt 20))).
  - vm_compute; reflexivity.
  - vm_compute; reflexivity.
  - vm_compute; reflexivity.
  - vm_compute; reflexivity.
Defined.

